(* ===================================================================== *)
(* Deferred work after the response: `AfterContextImpl` and              *)
(* `InvariantError`                                                      *)
(*                                                                       *)
(* A shallow embedding of                                                *)
(*   packages/next/src/server/after/after-context.ts                     *)
(*   the `InvariantError` class                                          *)
(* and the properties their specification states about them.             *)
(* ===================================================================== *)

From Stdlib Require Import String Ascii.
From stdpp Require Import gmap strings list.

Open Scope string_scope.

(* ===================================================================== *)
(* 1. Strings                                                            *)
(* ===================================================================== *)

Module Str.

(** [String.prototype.endsWith]: the last [length suffix] characters of
    [s] are [suffix]. *)
Definition endsWith (s suffix : string) : bool :=
  let n := String.length s in
  let k := String.length suffix in
  if decide (k <= n)
  then bool_decide (substring (n - k) k s = suffix)
  else false.

(** [String.prototype.includes]. *)
Fixpoint includes (s sub : string) : bool :=
  String.prefix sub s
  || match s with
     | EmptyString => false
     | String _ rest => includes rest sub
     end.

End Str.

(* ===================================================================== *)
(* 2. InvariantError                                                     *)
(* ===================================================================== *)

(** The values the program throws.  Every error of after-context.ts is a
    plain [new Error(message)]; a method call on something that is not
    callable raises the engine's [TypeError]; [InvariantError] is the
    subclass of [Error] with [name = 'InvariantError']. *)
Inductive JsError : Type :=
| Error (message : string)
| TypeError (message : string)
| InvariantError (message : string).

#[global] Instance JsError_eq_dec : EqDecision JsError.
Proof. solve_decision. Defined.

Definition error_message (e : JsError) : string :=
  match e with
  | Error m | TypeError m | InvariantError m => m
  end.

Module Invariant.

(** The template literal handed to [super(...)]:
    `Invariant: ${message.endsWith('.') ? message : message + '.'} This is a bug in Next.js.` *)
Definition message_of (message : string) : string :=
  "Invariant: "
    ++ (if Str.endsWith message "." then message else message ++ ".")
    ++ " This is a bug in Next.js.".

(** [new InvariantError(message)]. *)
Definition new (message : string) : JsError :=
  InvariantError (message_of message).

End Invariant.

Open Scope list_scope.

(* ===================================================================== *)
(* 3. Values handed to `after`                                           *)
(* ===================================================================== *)

Definition PromiseRef := nat.
Definition FunRef := nat.
Definition HeadersRef := nat.
Definition ObjRef := nat.

(** Runtime values, as far as [isPromise] and [after] look into them: a
    plain object and a function carry their properties ([in] and member
    access see them), a native [Promise] is a reference into the promise
    heap, a function is a reference to its body. *)
#[warnings="-register-all"]
Inductive JsValue : Type :=
| JsUndefined
| JsNull
| JsBoolean (b : bool)
| JsNumber (n : Z)
| JsString (s : string)
| JsObject (props : list (string * JsValue))
| JsPromise (p : PromiseRef)
| JsFunction (f : FunRef) (props : list (string * JsValue)).

Inductive JsType : Type :=
| TUndefined | TObject | TBoolean | TNumber | TString | TFunction.

#[global] Instance JsType_eq_dec : EqDecision JsType.
Proof. solve_decision. Defined.

(** The [typeof] operator; [typeof null] is ['object']. *)
Definition typeof (v : JsValue) : JsType :=
  match v with
  | JsUndefined => TUndefined
  | JsNull => TObject
  | JsBoolean _ => TBoolean
  | JsNumber _ => TNumber
  | JsString _ => TString
  | JsObject _ => TObject
  | JsPromise _ => TObject
  | JsFunction _ _ => TFunction
  end.

Definition lookup_prop (key : string) (props : list (string * JsValue))
  : option JsValue :=
  snd <$> List.find (fun kv => bool_decide (fst kv = key)) props.

(** The methods every native promise inherits from [Promise.prototype]. *)
Definition promise_methods : list string := ["then"; "catch"; "finally"].

(** [v[key]] on an object or a function; a missing property reads as
    [undefined].  The native methods of a promise are built-in functions,
    represented by [JsFunction 0 []]: only their type is ever inspected. *)
Definition get_prop (key : string) (v : JsValue) : JsValue :=
  match v with
  | JsObject props | JsFunction _ props =>
      default JsUndefined (lookup_prop key props)
  | JsPromise _ =>
      if bool_decide (key ∈ promise_methods) then JsFunction 0 [] else JsUndefined
  | _ => JsUndefined
  end.

(** [key in v], for [v] an object or a function (the operator raises on a
    primitive; [isPromise] guards it behind the [typeof] test). *)
Definition has_prop (key : string) (v : JsValue) : bool :=
  match v with
  | JsObject props | JsFunction _ props =>
      bool_decide (is_Some (lookup_prop key props))
  | JsPromise _ => bool_decide (key ∈ promise_methods)
  | _ => false
  end.

(** after-context.ts, [isPromise]:
      p !== null && typeof p === 'object' && 'then' in p
        && typeof p.then === 'function' *)
Definition isPromise (p : JsValue) : bool :=
  match p with
  | JsNull => false
  | _ =>
      bool_decide (typeof p = TObject)
      && has_prop "then" p
      && bool_decide (typeof (get_prop "then" p) = TFunction)
  end.

(* ===================================================================== *)
(* 4. The world deferred work acts on                                    *)
(* ===================================================================== *)

(** How a statement ends: normally with a value, or by throwing. *)
Inductive Completion (A : Type) : Type :=
| Normal (a : A)
| Throw (e : JsError).
Arguments Normal {A} a.
Arguments Throw {A} e.

(** How a promise eventually settles.  The program never decides this: it
    is the settlement the caller's asynchronous work will have. *)
Inductive Fate : Type :=
| Fulfils
| Rejects (reason : JsError)
| NeverSettles.

(** A promise: its fate and the number of reactions attached to its
    rejection channel ([catch], [then], [await]). *)
Record PromiseCell : Type := mkPromiseCell {
  fate : Fate;
  rejectionHandlers : nat
}.

(** The part of the heap user code can reach: promises, [Headers]
    objects, and [effects], a journal standing for every other side effect
    a function may have. *)
Record World : Type := mkWorld {
  promises : gmap PromiseRef PromiseCell;
  headersHeap : gmap HeadersRef (list (string * string));
  effects : list nat
}.

Definition set_promises (f : gmap PromiseRef PromiseCell -> gmap PromiseRef PromiseCell)
  (w : World) : World :=
  {| promises := f (promises w); headersHeap := headersHeap w; effects := effects w |}.

Definition set_headersHeap
  (f : gmap HeadersRef (list (string * string)) -> gmap HeadersRef (list (string * string)))
  (w : World) : World :=
  {| promises := promises w; headersHeap := f (headersHeap w); effects := effects w |}.

Definition add_effect (n : nat) (w : World) : World :=
  {| promises := promises w; headersHeap := headersHeap w; effects := effects w ++ [n] |}.

(** A reference that was never allocated reads as a promise nobody has
    settled or observed. *)
Definition promise_cell (p : PromiseRef) (w : World) : PromiseCell :=
  default (mkPromiseCell NeverSettles 0) (promises w !! p).

(** Attaching a reaction to the rejection channel of [p]. *)
Definition observe_rejection (p : PromiseRef) (w : World) : World :=
  let c := promise_cell p w in
  set_promises <[p := mkPromiseCell (fate c) (S (rejectionHandlers c))]> w.

(** [new Promise], settled the way [f] says. *)
Definition alloc_promise (f : Fate) (w : World) : PromiseRef * World :=
  let p := fresh (dom (promises w)) in
  (p, set_promises <[p := mkPromiseCell f 0]> w).

(** [p.catch(() => {})] on a native promise: one more reaction on the
    rejection channel of [p], and a derived promise that is fulfilled
    whenever [p] settles (the handler returns normally), which the caller
    drops. *)
Definition Promise_catch_noop (p : PromiseRef) (w : World) : PromiseRef * World :=
  let derived :=
    match fate (promise_cell p w) with
    | NeverSettles => NeverSettles
    | Fulfils | Rejects _ => Fulfils
    end in
  alloc_promise derived (observe_rejection p w).


(** Modelled from the spec: [Headers] and [ResponseCookies]
    (web/spec-extension/cookies) are external collaborators.  A
    [ResponseCookies] is bound to the [Headers] object it was built on and
    [set] writes a [set-cookie] line into that object. *)
Record ResponseCookies : Type := mkResponseCookies { rc_headers : HeadersRef }.

(** Modelled from the spec: [new Headers()] is a new, empty object. *)
Definition new_Headers (w : World) : HeadersRef * World :=
  let h := fresh (dom (headersHeap w)) in
  (h, set_headersHeap <[h := []]> w).

(** Modelled from the spec: [new ResponseCookies(headers)] is bound to
    [headers] and to nothing else. *)
Definition new_ResponseCookies (h : HeadersRef) : ResponseCookies :=
  mkResponseCookies h.

(** Modelled from the spec: [cookies.set(name, value)] is accepted and
    lands in the [Headers] object the instance is bound to.  Only where the
    write lands is modelled: the line below stands for the serialised
    cookie, and nothing proved in this file depends on its text or on how a
    repeated name is merged. *)
Definition ResponseCookies_set (c : ResponseCookies) (name value : string)
  (w : World) : World :=
  let lines : list (string * string) := default [] (headersHeap w !! rc_headers c) in
  set_headersHeap <[rc_headers c := (lines ++ [("set-cookie", (name ++ "=" ++ value)%string)])%list]> w.

(** What a request store exposes.  The fields this module only forwards
    are references; [afterContext] is kept abstract in [C]: the live store
    points back to its [AfterContextImpl], the store built for deferred
    callbacks holds an object literal with two closures. *)
Record RequestStoreOf (C : Type) : Type := mkRequestStore {
  headers : ObjRef;
  cookies : ObjRef;
  draftMode : ObjRef;
  mutableCookies : ResponseCookies;
  assetPrefix : string;
  reactLoadableManifest : ObjRef;
  afterContext : C
}.
Arguments mkRequestStore {C}.
Arguments headers {C}.
Arguments cookies {C}.
Arguments draftMode {C}.
Arguments mutableCookies {C}.
Arguments assetPrefix {C}.
Arguments reactLoadableManifest {C}.
Arguments afterContext {C}.

(** The [afterContext] of the live store: the context of the request. *)
Inductive ThisContext : Type := this_context.

(** The [afterContext] literal of [wrapRequestStoreForAfterCallbacks]:
    two arrow functions, called with whatever arguments the caller has. *)
Record NestedAfterContext : Type := mkNestedAfterContext {
  nested_after : list JsValue -> Completion unit;
  nested_run : list JsValue -> Completion unit
}.

Definition RequestStore : Type := RequestStoreOf ThisContext.
Definition ReadonlyRequestStore : Type := RequestStoreOf NestedAfterContext.

(** after-context.ts, [wrapRequestStoreForAfterCallbacks]. *)
Definition wrapRequestStoreForAfterCallbacks (requestStore : RequestStore)
  (w : World) : ReadonlyRequestStore * World :=
  let '(h, w') := new_Headers w in
  ({| headers := headers requestStore;
      cookies := cookies requestStore;
      draftMode := draftMode requestStore;
      mutableCookies := new_ResponseCookies h;
      assetPrefix := assetPrefix requestStore;
      reactLoadableManifest := reactLoadableManifest requestStore;
      afterContext :=
        {| nested_after := fun _ =>
             Throw (Error "Cannot call `unstable_after()` from within `unstable_after()`");
           nested_run := fun _ =>
             Throw (Error "Invariant: Cannot call `AfterContext.run()` from within an `unstable_after()` callback") |}
   |}, w').

(* ===================================================================== *)
(* 5. The request's context and its host                                 *)
(* ===================================================================== *)

(** Host capabilities ([AfterContextOpts]).  The two functions belong to
    the host; the context only tests whether it has them and calls them. *)
Inductive WaitUntilFn : Type := host_waitUntil.
Inductive OnCloseFn : Type := host_onClose.
Record CacheScope : Type := mkCacheScope { scope_id : nat }.

(** The closures [after] queues:
      () => getTracer().trace(BaseServerSpan.after, () => task())
    each determined by the [task] it captured. *)
Inductive AfterCallback : Type := TracedTask (task : JsValue).

(** The fields of [AfterContextImpl]. *)
Record AfterContextImpl : Type := mkAfterContextImpl {
  waitUntil : option WaitUntilFn;
  onClose : option OnCloseFn;
  cacheScope : option CacheScope;
  requestStore : option RequestStore;
  afterCallbacks : list AfterCallback
}.

(** [new AfterContextImpl({ waitUntil, onClose, cacheScope })]. *)
Definition createAfterContext (wu : option WaitUntilFn) (oc : option OnCloseFn)
  (cs : option CacheScope) : AfterContextImpl :=
  {| waitUntil := wu; onClose := oc; cacheScope := cs;
     requestStore := None; afterCallbacks := [] |}.

(** How a promise built by this module has settled. *)
Inductive Settlement : Type :=
| Fulfilled
| Rejected (reason : JsError)
| Unsettled.

(** What [waitUntil] is called with. *)
Inductive WaitUntilArg : Type :=
| WaitTask (task : JsValue)
| WaitDrainJob.

(** What the host and the runtime around the context can observe, in the
    order it happens. *)
Inductive Event : Type :=
| EvWaitUntil (work : WaitUntilArg)
| EvOnClose
| EvStorageRun (store : ReadonlyRequestStore)
| EvCacheScopeRun (scope : CacheScope)
| EvTrace (task : JsValue)
| EvConsoleError (label : string) (err : JsError)
| EvDrainJobSettled (outcome : Settlement).

(** The rest of an [async] function after an [await]. *)
Inductive Continuation : Type := ResumeRunCallbacksOnClose.

Record Sys : Type := mkSys {
  this : AfterContextImpl;
  world : World;
  events : list Event;
  closeListeners : list Continuation;
  microtasks : list Continuation
}.

Definition set_this (f : AfterContextImpl -> AfterContextImpl) (s : Sys) : Sys :=
  {| this := f (this s); world := world s; events := events s;
     closeListeners := closeListeners s; microtasks := microtasks s |}.

Definition set_world (f : World -> World) (s : Sys) : Sys :=
  {| this := this s; world := f (world s); events := events s;
     closeListeners := closeListeners s; microtasks := microtasks s |}.

Definition emit (e : Event) (s : Sys) : Sys :=
  {| this := this s; world := world s; events := events s ++ [e];
     closeListeners := closeListeners s; microtasks := microtasks s |}.

Definition set_closeListeners (f : list Continuation -> list Continuation)
  (s : Sys) : Sys :=
  {| this := this s; world := world s; events := events s;
     closeListeners := f (closeListeners s); microtasks := microtasks s |}.

Definition set_microtasks (f : list Continuation -> list Continuation)
  (s : Sys) : Sys :=
  {| this := this s; world := world s; events := events s;
     closeListeners := closeListeners s; microtasks := f (microtasks s) |}.

Definition set_requestStore (r : option RequestStore) (c : AfterContextImpl)
  : AfterContextImpl :=
  {| waitUntil := waitUntil c; onClose := onClose c; cacheScope := cacheScope c;
     requestStore := r; afterCallbacks := afterCallbacks c |}.

Definition push_afterCallback (cb : AfterCallback) (c : AfterContextImpl)
  : AfterContextImpl :=
  {| waitUntil := waitUntil c; onClose := onClose c; cacheScope := cacheScope c;
     requestStore := requestStore c; afterCallbacks := afterCallbacks c ++ [cb] |}.

(** Synchronous code: it reads and writes the state and ends normally or
    by throwing.  What was written before a throw stays written. *)
Definition M (A : Type) : Type := Sys -> Completion A * Sys.

Definition ret {A} (a : A) : M A := fun s => (Normal a, s).

Definition throw {A} (e : JsError) : M A := fun s => (Throw e, s).

Definition bind {A B} (m : M A) (k : A -> M B) : M B :=
  fun s =>
    match m s with
    | (Normal a, s') => k a s'
    | (Throw e, s') => (Throw e, s')
    end.

Definition gets {A} (f : Sys -> A) : M A := fun s => (Normal (f s), s).

Definition modify (f : Sys -> Sys) : M unit := fun s => (Normal tt, f s).

(** [if (c) { m }]. *)
Definition when (c : bool) (m : M unit) : M unit := if c then m else ret tt.

Declare Scope js_scope.
Delimit Scope js_scope with js.
Notation "x <- m ;; k" := (bind m (fun x => k))
  (at level 100, m at next level, right associativity) : js_scope.
Notation "m ;; k" := (bind m (fun _ => k))
  (at level 100, right associativity) : js_scope.
Open Scope js_scope.

(** Truthiness of an optional field: [!this.field] is [negb (defined field)]. *)
Definition defined {A} (o : option A) : bool :=
  match o with Some _ => true | None => false end.

(* ===================================================================== *)
(* 6. AfterContextImpl                                                   *)
(* ===================================================================== *)

(** What a function value does when called without arguments: it sees the
    request store of the drain pass it runs in (if it runs in one), acts on
    the world, and throws or returns; [Some p] is a returned promise, [None]
    any value that is not a thenable. *)
Definition Callable : Type :=
  option ReadonlyRequestStore -> World -> Completion (option PromiseRef) * World.

Definition msg_waitUntil_unavailable : string :=
  "`unstable_after()` will not work correctly, because `waitUntil` is not implemented for the current environment.".

Definition msg_requestStore_uninitialized : string :=
  "Invariant: expected `AfterContext.requestStore` to be initialized".

Definition msg_onClose_unavailable : string :=
  "`unstable_after()` received a function, but Next.js will not be able to run it, because `onClose` is not implemented for the current environment.".

Definition msg_bad_task : string :=
  "`unstable_after()` must receive a promise or a function as its argument".

Definition msg_console_label : string :=
  "An error occurred in a function passed to `unstable_after()`:".

Section AfterContext.

(** The bodies of the function values of the program. *)
Variable funs : FunRef -> Callable.

(** [errorWaitUntilNotAvailable(): never]. *)
Definition errorWaitUntilNotAvailable {A} : M A :=
  throw (Error msg_waitUntil_unavailable).

(** Calling a value.  Only a function can be called. *)
Definition call (v : JsValue) (store : option ReadonlyRequestStore)
  (w : World) : Completion (option PromiseRef) * World :=
  match v with
  | JsFunction f _ => funs f store w
  | _ => (Throw (TypeError "value is not a function"), w)
  end.

(** [this.waitUntil(work)].  Modelled from the spec: the host's
    [waitUntil] registers [work] as outstanding; the call is what the host
    sees. *)
Definition call_waitUntil (work : WaitUntilArg) : M unit :=
  wu <- gets (fun s => waitUntil (this s)) ;;
  match wu with
  | Some host_waitUntil => modify (emit (EvWaitUntil work))
  | None => throw (TypeError "this.waitUntil is not a function")
  end.

(** [task.catch(() => {})].  On a native promise this is
    [Promise.prototype.catch]; on any other object that passed
    [isPromise] it is whatever the object has under [catch]. *)
Definition call_catch_noop (task : JsValue) : M unit :=
  match task with
  | JsPromise p =>
      modify (set_world (fun w => snd (Promise_catch_noop p w)))
  | _ =>
      match get_prop "catch" task with
      | JsFunction g _ =>
          fun s =>
            match funs g None (world s) with
            | (Normal _, w') => (Normal tt, set_world (fun _ => w') s)
            | (Throw e, w') => (Throw e, set_world (fun _ => w') s)
            end
      | _ => throw (TypeError "task.catch is not a function")
      end
  end.

(** The part of [runCallbacksOnClose] that runs when it is called: the
    executor of the promise hands [resolve] to [onClose], and the function
    suspends at its [await].  The promise it returns is the drain job. *)
Definition runCallbacksOnClose : M WaitUntilArg :=
  oc <- gets (fun s => onClose (this s)) ;;
  match oc with
  | Some host_onClose =>
      modify (emit EvOnClose) ;;
      modify (set_closeListeners (fun l => l ++ [ResumeRunCallbacksOnClose])) ;;
      ret WaitDrainJob
  | None =>
      modify (emit (EvDrainJobSettled
                      (Rejected (TypeError "this.onClose is not a function")))) ;;
      ret WaitDrainJob
  end.

(** [addCallback]. *)
Definition addCallback (callback : AfterCallback) : M unit :=
  n <- gets (fun s => length (afterCallbacks (this s))) ;;
  when (bool_decide (n = 0)) (
    wu <- gets (fun s => waitUntil (this s)) ;;
    when (negb (defined wu)) errorWaitUntilNotAvailable ;;
    rs <- gets (fun s => requestStore (this s)) ;;
    when (negb (defined rs)) (throw (Error msg_requestStore_uninitialized)) ;;
    oc <- gets (fun s => onClose (this s)) ;;
    when (negb (defined oc)) (throw (Error msg_onClose_unavailable)) ;;
    job <- runCallbacksOnClose ;;
    call_waitUntil job
  ) ;;
  modify (set_this (push_afterCallback callback)).

(** [after]. *)
Definition after (task : JsValue) : M unit :=
  if isPromise task then
    call_catch_noop task ;;
    wu <- gets (fun s => waitUntil (this s)) ;;
    when (negb (defined wu)) errorWaitUntilNotAvailable ;;
    call_waitUntil (WaitTask task)
  else if bool_decide (typeof task = TFunction) then
    addCallback (TracedTask task)
  else
    throw (Error msg_bad_task).

(** Modelled from the spec: [CacheScope] (./react-cache-scope) is an
    external collaborator whose [run(fn)] establishes a nested cache
    context for the duration of [fn]. *)
Definition cacheScope_run {A} (scope : CacheScope) (fn : M A) : M A :=
  modify (emit (EvCacheScopeRun scope)) ;; fn.

(** [run]. *)
Definition run {T} (store : RequestStore) (callback : M T) : M T :=
  modify (set_this (set_requestStore (Some store))) ;;
  cs <- gets (fun s => cacheScope (this s)) ;;
  match cs with
  | Some scope => cacheScope_run scope callback
  | None => callback
  end.

(* ------------------------------------------------------------------- *)
(* Draining                                                            *)
(* ------------------------------------------------------------------- *)

(** Modelled from the spec: [getTracer().trace] (../lib/trace/tracer) is
    an external collaborator; [trace(span, fn)] opens the span, calls
    [fn] and hands back what [fn] returns or throws.  This is one queued
    closure being called under the store of the drain pass. *)
Definition call_afterCallback (store : ReadonlyRequestStore)
  (callback : AfterCallback) : M (option PromiseRef) :=
  match callback with
  | TracedTask task =>
      fun s =>
        let s1 := emit (EvTrace task) s in
        let '(c, w') := call task (Some store) (world s1) in
        (c, set_world (fun _ => w') s1)
  end.

(** Where one
      async (afterCallback) => {
        try { await afterCallback() } catch (err) { console.error(...) }
      }
    stands once [map] has called it: finished, or suspended on the
    promise the callback returned. *)
Inductive Wrapper : Type :=
| WrapperDone
| WrapperAwaits (p : PromiseRef).

(** The synchronous part of one wrapper.  A throw of the callback lands
    in the [catch] at once; [await] on a returned promise attaches its
    reactions to it and suspends; [await] on any other value has nothing
    to wait for. *)
Definition wrapper_start (store : ReadonlyRequestStore)
  (callback : AfterCallback) (s : Sys) : Wrapper * Sys :=
  match call_afterCallback store callback s with
  | (Throw err, s') =>
      (WrapperDone, emit (EvConsoleError msg_console_label err) s')
  | (Normal None, s') => (WrapperDone, s')
  | (Normal (Some p), s') =>
      (WrapperAwaits p, set_world (observe_rejection p) s')
  end.

(** [this.afterCallbacks.map(async (afterCallback) => ...)]: every
    wrapper is started, in queue order, before any of them resumes. *)
Fixpoint map_wrappers (store : ReadonlyRequestStore)
  (callbacks : list AfterCallback) (s : Sys) : list Wrapper * Sys :=
  match callbacks with
  | [] => ([], s)
  | callback :: rest =>
      let '(wr, s1) := wrapper_start store callback s in
      let '(wrs, s2) := map_wrappers store rest s1 in
      (wr :: wrs, s2)
  end.

(** The rest of one wrapper: a rejection of the awaited promise lands in
    the [catch]; the wrapper's own promise fulfils either way, unless the
    awaited promise never settles. *)
Definition wrapper_resume (wr : Wrapper) (s : Sys) : Settlement * Sys :=
  match wr with
  | WrapperDone => (Fulfilled, s)
  | WrapperAwaits p =>
      match fate (promise_cell p (world s)) with
      | Fulfils => (Fulfilled, s)
      | Rejects err =>
          (Fulfilled, emit (EvConsoleError msg_console_label err) s)
      | NeverSettles => (Unsettled, s)
      end
  end.

Fixpoint resume_wrappers (wrs : list Wrapper) (s : Sys)
  : list Settlement * Sys :=
  match wrs with
  | [] => ([], s)
  | wr :: rest =>
      let '(out, s1) := wrapper_resume wr s in
      let '(outs, s2) := resume_wrappers rest s1 in
      (out :: outs, s2)
  end.

(** [Promise.all]: rejected as soon as one input is, fulfilled when all
    are, unsettled otherwise. *)
Fixpoint Promise_all (inputs : list Settlement) : Settlement :=
  match inputs with
  | [] => Fulfilled
  | Rejected e :: _ => Rejected e
  | Fulfilled :: rest => Promise_all rest
  | Unsettled :: rest =>
      match Promise_all rest with
      | Rejected e => Rejected e
      | _ => Unsettled
      end
  end.

(** [runCallbacksImpl]: [await Promise.all(this.afterCallbacks.map(...))]. *)
Definition runCallbacksImpl (store : ReadonlyRequestStore) (s : Sys)
  : Settlement * Sys :=
  let '(wrs, s1) := map_wrappers store (afterCallbacks (this s)) s in
  let '(outs, s2) := resume_wrappers wrs s1 in
  (Promise_all outs, s2).

(** [runCallbacks]: an [async] function, so what it throws is the
    rejection of the promise it returns.  With no store,
    [wrapRequestStoreForAfterCallbacks] fails on reading
    [requestStore.assetPrefix]. *)
Definition runCallbacks (store : option RequestStore) (s : Sys)
  : Settlement * Sys :=
  if bool_decide (length (afterCallbacks (this s)) = 0) then (Fulfilled, s)
  else
    match store with
    | None =>
        (Rejected (TypeError "Cannot read properties of undefined (reading 'assetPrefix')"), s)
    | Some requestStore =>
        let '(readonlyRequestStore, w') :=
          wrapRequestStoreForAfterCallbacks requestStore (world s) in
        let s1 := emit (EvStorageRun readonlyRequestStore)
                       (set_world (fun _ => w') s) in
        match cacheScope (this s1) with
        | Some scope =>
            runCallbacksImpl readonlyRequestStore (emit (EvCacheScopeRun scope) s1)
        | None => runCallbacksImpl readonlyRequestStore s1
        end
    end.

(* ------------------------------------------------------------------- *)
(* The host                                                            *)
(* ------------------------------------------------------------------- *)

(** Modelled from the spec: the transport-close hook is one-shot.  When
    the response has been flushed the host calls every listener it was
    given; a listener here is the [resolve] of the promise
    [runCallbacksOnClose] awaits, so calling it queues the rest of that
    function as a microtask. *)
Definition host_close (s : Sys) : Sys :=
  set_closeListeners (fun _ => [])
    (set_microtasks (fun q => q ++ closeListeners s) s).

(** The rest of [runCallbacksOnClose]:
      return this.runCallbacks(this.requestStore!)
    and the settlement of the drain job the host was given. *)
Definition run_microtask (k : Continuation) (s : Sys) : Sys :=
  match k with
  | ResumeRunCallbacksOnClose =>
      let '(outcome, s') := runCallbacks (requestStore (this s)) s in
      match outcome with
      | Unsettled => s'
      | _ => emit (EvDrainJobSettled outcome) s'
      end
  end.

Definition run_microtasks (s : Sys) : Sys :=
  fold_left (fun acc k => run_microtask k acc) (microtasks s)
    (set_microtasks (fun _ => []) s).

(** The close signal and the microtasks it releases. *)
Definition close (s : Sys) : Sys := run_microtasks (host_close s).

End AfterContext.

(* ===================================================================== *)
(* 7. Vocabulary of the properties                                       *)
(* ===================================================================== *)

(** Reading the event log. *)
Definition traced (evs : list Event) : list JsValue :=
  omap (fun e => match e with EvTrace t => Some t | _ => None end) evs.

Definition waitUntil_calls (evs : list Event) : list WaitUntilArg :=
  omap (fun e => match e with EvWaitUntil w => Some w | _ => None end) evs.

Definition storage_runs (evs : list Event) : list ReadonlyRequestStore :=
  omap (fun e => match e with EvStorageRun v => Some v | _ => None end) evs.

Definition console_errors (evs : list Event) : list JsError :=
  omap (fun e => match e with EvConsoleError _ err => Some err | _ => None end) evs.

Definition close_registrations (evs : list Event) : list unit :=
  omap (fun e => match e with EvOnClose => Some tt | _ => None end) evs.

Definition task_of (cb : AfterCallback) : JsValue :=
  match cb with TracedTask task => task end.

(** [s] after some code has run: the context, the listeners and the
    microtasks as they were, the world replaced, the events extended. *)
Definition advance (s : Sys) (w : World) (evs : list Event) : Sys :=
  {| this := this s; world := w; events := events s ++ evs;
     closeListeners := closeListeners s; microtasks := microtasks s |}.

(** The state [addCallback] leaves when it registers the drain job and
    queues [cb]. *)
Definition registered (cb : AfterCallback) (s : Sys) : Sys :=
  set_this (push_afterCallback cb)
    (emit (EvWaitUntil WaitDrainJob)
       (set_closeListeners (fun l => l ++ [ResumeRunCallbacksOnClose])
          (emit EvOnClose s))).

(** The state [after] leaves once [task.catch(() => {})] has run on the
    native promise [p]. *)
Definition observed (p : PromiseRef) (s : Sys) : Sys :=
  set_world (fun w => snd (Promise_catch_noop p w)) s.

(** [s] once [run] has stored [store] and entered the cache scope, if
    there is one: the state the callback of [run] starts in. *)
Definition entered (store : RequestStore) (s : Sys) : Sys :=
  let s1 := set_this (set_requestStore (Some store)) s in
  match cacheScope (this s) with
  | Some scope => emit (EvCacheScopeRun scope) s1
  | None => s1
  end.

(** [s] with the queue replaced. *)
Definition with_queue (q : list AfterCallback) (s : Sys) : Sys :=
  set_this (fun c =>
    {| waitUntil := waitUntil c; onClose := onClose c; cacheScope := cacheScope c;
       requestStore := requestStore c; afterCallbacks := q |}) s.

(** The events a drain pass opens with. *)
Definition drain_prologue (view : ReadonlyRequestStore) (s : Sys) : list Event :=
  EvStorageRun view
    :: match cacheScope (this s) with
       | Some scope => [EvCacheScopeRun scope]
       | None => []
       end.

(** What a function body gets back from
    [store.afterContext.after(...args)], or [run] when [use_run], when it
    lets the exception through. *)
Definition call_entry_point (use_run : bool) (store : ReadonlyRequestStore)
  (args : list JsValue) : Completion (option PromiseRef) :=
  match (if use_run then nested_run else nested_after) (afterContext store) args with
  | Throw e => Throw e
  | Normal _ => Normal None
  end.

Definition nesting_error (use_run : bool) : JsError :=
  if use_run
  then Error "Invariant: Cannot call `AfterContext.run()` from within an `unstable_after()` callback"
  else Error "Cannot call `unstable_after()` from within `unstable_after()`".

Section DrainSpec.

Variable funs : FunRef -> Callable.
Variable view : ReadonlyRequestStore.

(** What one queued callback does to the world when the drain pass calls
    it, what its wrapper logs at once, and where the wrapper stands. *)
Definition callback_step (cb : AfterCallback) (w : World)
  : Wrapper * list Event * World :=
  match call funs (task_of cb) (Some view) w with
  | (Throw err, w') =>
      (WrapperDone, [EvTrace (task_of cb); EvConsoleError msg_console_label err], w')
  | (Normal None, w') => (WrapperDone, [EvTrace (task_of cb)], w')
  | (Normal (Some p), w') =>
      (WrapperAwaits p, [EvTrace (task_of cb)], observe_rejection p w')
  end.

(** The callbacks of the queue called one after the other, each on the
    world the previous one left, whatever the previous ones did. *)
Fixpoint sync_phase (cbs : list AfterCallback) (w : World)
  : list Wrapper * list Event * World :=
  match cbs with
  | [] => ([], [], w)
  | cb :: rest =>
      let '(wr, evs, w1) := callback_step cb w in
      let '(wrs, evs', w2) := sync_phase rest w1 in
      (wr :: wrs, evs ++ evs', w2)
  end.

(** How a suspended wrapper ends in the world [w]. *)
Definition wrapper_outcome (w : World) (wr : Wrapper) : Settlement :=
  match wr with
  | WrapperDone => Fulfilled
  | WrapperAwaits p =>
      match fate (promise_cell p w) with
      | NeverSettles => Unsettled
      | Fulfils | Rejects _ => Fulfilled
      end
  end.

Definition wrapper_log (w : World) (wr : Wrapper) : option Event :=
  match wr with
  | WrapperDone => None
  | WrapperAwaits p =>
      match fate (promise_cell p w) with
      | Rejects err => Some (EvConsoleError msg_console_label err)
      | _ => None
      end
  end.

End DrainSpec.

Section Handlers.

Variable funs : FunRef -> Callable.

(** The body of function [f] executed once on the world [w] under the
    store [view], as the drain pass executes it: what the body does to the
    world stays done whether it returns or throws, and a promise it returns
    is awaited. *)
Definition run_body (view : ReadonlyRequestStore) (w : World) (f : FunRef)
  : World :=
  match funs f (Some view) w with
  | (Normal (Some p), w') => observe_rejection p w'
  | (Normal None, w') => w'
  | (Throw _, w') => w'
  end.

(** [after(t1); after(t2); ...], as the handler calls them. *)
Fixpoint after_all (tasks : list JsValue) : M unit :=
  match tasks with
  | [] => ret tt
  | task :: rest => (after funs task ;; after_all rest)
  end.

(** A queued function whose body is
    [store.mutableCookies.set(name, value)] on the store it runs under. *)
Definition writes_cookie (cb : AfterCallback) : Prop :=
  exists f props name value,
    cb = TracedTask (JsFunction f props)
    /\ forall v w,
         funs f (Some v) w
         = (Normal None, ResponseCookies_set (mutableCookies v) name value w).

End Handlers.

(** The context as [createAfterContext] hands it to the request
    pipeline, in a host where nothing has happened yet. *)
Definition boot (wu : option WaitUntilFn) (oc : option OnCloseFn)
  (cs : option CacheScope) (w : World) : Sys :=
  {| this := createAfterContext wu oc cs; world := w; events := [];
     closeListeners := []; microtasks := [] |}.

Definition scope_runs (evs : list Event) : list CacheScope :=
  omap (fun e => match e with EvCacheScopeRun c => Some c | _ => None end) evs.

(** The body a function value refers to. *)
Definition fun_ref (v : JsValue) : option FunRef :=
  match v with
  | JsFunction f _ => Some f
  | _ => None
  end.

(** The events that come from calling callbacks: the tracer and the
    console. *)
Definition callback_event (e : Event) : Prop :=
  match e with
  | EvTrace _ | EvConsoleError _ _ => True
  | _ => False
  end.

(** The [waitUntil] calls a sequence of [after] calls makes when every
    call returns: one per promise, in call order, and one for the drain
    job, where the first function comes. *)
Fixpoint host_calls (registered : bool) (tasks : list JsValue)
  : list WaitUntilArg :=
  match tasks with
  | [] => []
  | task :: rest =>
      if isPromise task then WaitTask task :: host_calls registered rest
      else if registered then host_calls true rest
      else WaitDrainJob :: host_calls true rest
  end.


(* ===================================================================== *)
(* 8. A concrete request                                                 *)
(* ===================================================================== *)

Module Demo.

Definition store : RequestStore :=
  {| headers := 1; cookies := 2; draftMode := 3;
     mutableCookies := new_ResponseCookies 0;
     assetPrefix := "/assets"; reactLoadableManifest := 4;
     afterContext := this_context |}.

(** One promise, which rejects and has no reaction yet, and the
    [Headers] object of the response. *)
Definition world0 : World :=
  {| promises := {[ 7 := mkPromiseCell (Rejects (Error "late")) 0 ]};
     headersHeap := {[ 0 := [] ]};
     effects := [] |}.

Definition sys (wu : option WaitUntilFn) (oc : option OnCloseFn)
  (rs : option RequestStore) (q : list AfterCallback) : Sys :=
  {| this := {| waitUntil := wu; onClose := oc; cacheScope := None;
                requestStore := rs; afterCallbacks := q |};
     world := world0; events := []; closeListeners := []; microtasks := [] |}.

(** A context with everything the host can give, after [run]. *)
Definition ready : Sys :=
  sys (Some host_waitUntil) (Some host_onClose) (Some store) [].

(** Function 1 and 3 leave a mark, 2 throws, 4 calls [after] from inside
    the drain pass, 5 sets a cookie, 6 returns the rejecting promise. *)
Definition funs : FunRef -> Callable := fun f ambient w =>
  match f with
  | 1 => (Normal None, add_effect 1 w)
  | 2 => (Throw (Error "boom"), w)
  | 3 => (Normal None, add_effect 3 w)
  | 4 => match ambient with
         | Some v => (call_entry_point false v [JsFunction 1 []], w)
         | None => (Normal None, w)
         end
  | 5 => match ambient with
         | Some v =>
             (Normal None, ResponseCookies_set (mutableCookies v) "session" "x" w)
         | None => (Normal None, w)
         end
  | 6 => (Normal (Some 7), w)
  | _ => (Normal None, w)
  end.

Definition fn (f : FunRef) : JsValue := JsFunction f [].

(** The context after three functions were scheduled and the response
    closed. *)
Definition drained : Sys :=
  close funs (snd (after_all funs [fn 1; fn 2; fn 3] ready)).

End Demo.

(** More functions for the same request: 1 returns promise 9, which nobody
    ever settles; 2 and 3 set a cookie each; the others return at once. *)
Module Sample.

Definition funs : FunRef -> Callable := fun f ambient w =>
  match f, ambient with
  | 1, _ => (Normal (Some 9), w)
  | 2, Some v => (Normal None, ResponseCookies_set (mutableCookies v) "a" "1" w)
  | 3, Some v => (Normal None, ResponseCookies_set (mutableCookies v) "b" "2" w)
  | _, _ => (Normal None, w)
  end.

(** A second request store, with other headers. *)
Definition other_store : RequestStore :=
  {| headers := 11; cookies := 12; draftMode := 13;
     mutableCookies := new_ResponseCookies 0;
     assetPrefix := "/other"; reactLoadableManifest := 14;
     afterContext := this_context |}.

(** The ready context once a function has been scheduled. *)
Definition scheduled : Sys :=
  snd (after Demo.funs (Demo.fn 1) Demo.ready).

End Sample.

Ltac unfold_m :=
  unfold bind, gets, modify, when, throw, ret, errorWaitUntilNotAvailable in *.

(* ===================================================================== *)
(* 9. Properties of InvariantError                                       *)
(* ===================================================================== *)

Module StrFacts.

Lemma app_cons (c : ascii) (a b : string) :
  (String c a ++ b)%string = String c (a ++ b)%string.
Proof. reflexivity. Qed.

Lemma substring_whole (s : string) : substring 0 (String.length s) s = s.
Proof. induction s as [|c s IH]; simpl; [done | by rewrite IH]. Qed.

Lemma substring_app_tail (pre suf : string) :
  substring (String.length pre) (String.length suf) (pre ++ suf)%string = suf.
Proof.
  induction pre as [|c pre IH]; [apply substring_whole |].
  rewrite app_cons. exact IH.
Qed.

Lemma substring_split (s : string) (i : nat) :
  i <= String.length s ->
  s = (substring 0 i s ++ substring i (String.length s - i) s)%string.
Proof.
  revert i. induction s as [|c s IH]; intros [|i] Hi; simpl in *; try lia; try done.
  - by rewrite substring_whole.
  - rewrite app_cons. f_equal. apply IH. lia.
Qed.

Lemma length_app (a b : string) :
  String.length (a ++ b)%string = String.length a + String.length b.
Proof. induction a as [|c a IH]; [done |]. rewrite app_cons. simpl. by rewrite IH. Qed.

(** [endsWith] holds exactly of the strings that are something followed
    by the suffix. *)
Lemma endsWith_spec (s suf : string) :
  Str.endsWith s suf = true <-> exists pre, s = (pre ++ suf)%string.
Proof.
  unfold Str.endsWith. split.
  - case_decide as Hle; [| done].
    intros Heq%bool_decide_eq_true.
    exists (substring 0 (String.length s - String.length suf) s).
    pose proof (substring_split s (String.length s - String.length suf)) as Hs.
    replace (String.length s - (String.length s - String.length suf))
      with (String.length suf) in Hs by lia.
    rewrite Heq in Hs. apply Hs. lia.
  - intros [pre ->]. rewrite length_app.
    case_decide; [| lia].
    apply bool_decide_eq_true.
    replace (String.length pre + String.length suf - String.length suf)
      with (String.length pre) by lia.
    apply substring_app_tail.
Qed.

Lemma endsWith_false (s suf : string) :
  Str.endsWith s suf = false <-> ~ exists pre, s = (pre ++ suf)%string.
Proof.
  rewrite <- endsWith_spec. destruct (Str.endsWith s suf); split; intros; done.
Qed.

Lemma app_inv_head (a b c : string) : (a ++ b = a ++ c)%string -> b = c.
Proof.
  induction a as [|x a IH]; [done |].
  rewrite !app_cons. intros H. injection H as H. auto.
Qed.

Lemma app_inv_tail (a b c : string) : (a ++ c = b ++ c)%string -> a = b.
Proof.
  revert b. induction a as [|x a IH]; intros [|y b] H.
  - done.
  - apply (f_equal String.length) in H. rewrite !length_app in H. simpl in H. lia.
  - apply (f_equal String.length) in H. rewrite !length_app in H. simpl in H. lia.
  - rewrite !app_cons in H. injection H as -> H. f_equal. by apply IH.
Qed.

End StrFacts.

(** C8, as the code has it.  For every message [m] the error message is
    ["Invariant: "], then [m] itself when [m] ends with a period and [m]
    followed by one period when it does not, then
    [" This is a bug in Next.js."].  The part before the note therefore
    always ends with a period; a message that already ends with one, or
    with several, is kept as it is. *)
Theorem InvariantError_message (m : string) :
  exists body,
    error_message (Invariant.new m)
      = ("Invariant: " ++ body ++ " This is a bug in Next.js.")%string
    /\ (exists pre, body = (pre ++ ".")%string)
    /\ ((exists pre, m = (pre ++ ".")%string) /\ body = m
        \/ (~ exists pre, m = (pre ++ ".")%string) /\ body = (m ++ ".")%string).
Proof.
  unfold Invariant.new, Invariant.message_of; simpl.
  destruct (Str.endsWith m ".") eqn:E.
  - apply StrFacts.endsWith_spec in E. exists m. auto.
  - apply StrFacts.endsWith_false in E. exists (m ++ ".")%string.
    split; [done |]. split; [by exists m | by right].
Qed.

(** C8, the part that fails: the message ["a.."] ends with two periods and
    the error message keeps both, so it is not a body ending with exactly
    one period followed by the note. *)
Lemma InvariantError_keeps_trailing_periods :
  error_message (Invariant.new "a..")
    = "Invariant: a.. This is a bug in Next.js."
  /\ ~ exists body,
        error_message (Invariant.new "a..")
          = ("Invariant: " ++ body ++ ". This is a bug in Next.js.")%string
        /\ Str.endsWith body "." = false.
Proof.
  split; [reflexivity |].
  intros (body & Hmsg & Hend).
  assert (body = "a.") as ->; [| by vm_compute in Hend].
  change (error_message (Invariant.new "a.."))
    with ("Invariant: " ++ "a." ++ ". This is a bug in Next.js.")%string in Hmsg.
  apply StrFacts.app_inv_head in Hmsg.
  symmetry. by apply StrFacts.app_inv_tail in Hmsg.
Qed.

(* ===================================================================== *)
(* 10. Scheduling: `after` and `addCallback`                             *)
(* ===================================================================== *)

Section Scheduling.

Variable funs : FunRef -> Callable.

(** Every path through [addCallback]. *)
Lemma addCallback_cases (cb : AfterCallback) (s : Sys) :
  addCallback cb s =
    match afterCallbacks (this s) with
    | _ :: _ => (Normal tt, set_this (push_afterCallback cb) s)
    | [] =>
        match waitUntil (this s), requestStore (this s), onClose (this s) with
        | None, _, _ => (Throw (Error msg_waitUntil_unavailable), s)
        | Some _, None, _ => (Throw (Error msg_requestStore_uninitialized), s)
        | Some _, Some _, None => (Throw (Error msg_onClose_unavailable), s)
        | Some _, Some _, Some _ => (Normal tt, registered cb s)
        end
    end.
Proof.
  unfold addCallback, registered, runCallbacksOnClose, call_waitUntil. unfold_m.
  destruct s as [[wu oc cs rs q] w ev cl mt]; simpl.
  destruct q as [|c q]; simpl; [| done].
  destruct wu as [[]|]; simpl; [| done].
  destruct rs as [r|]; simpl; [| done].
  destruct oc as [[]|]; simpl; done.
Qed.

Lemma after_function (f : FunRef) (props : list (string * JsValue)) (s : Sys) :
  after funs (JsFunction f props) s
  = addCallback (TracedTask (JsFunction f props)) s.
Proof. reflexivity. Qed.

(** Every path through [after] on a native promise. *)
Lemma after_promise_cases (p : PromiseRef) (s : Sys) :
  after funs (JsPromise p) s =
    match waitUntil (this s) with
    | Some _ => (Normal tt, emit (EvWaitUntil (WaitTask (JsPromise p))) (observed p s))
    | None => (Throw (Error msg_waitUntil_unavailable), observed p s)
    end.
Proof.
  unfold after, call_catch_noop, call_waitUntil, observed. unfold_m.
  destruct s as [[wu oc cs rs q] w ev cl mt]; simpl.
  destruct wu as [[]|]; simpl; done.
Qed.


End Scheduling.

(** The promise heap after [p.catch(() => {})]. *)
Module PromiseFacts.

Lemma cell_observe_same (p : PromiseRef) (w : World) :
  promise_cell p (observe_rejection p w)
  = mkPromiseCell (fate (promise_cell p w)) (S (rejectionHandlers (promise_cell p w))).
Proof.
  unfold promise_cell at 1, observe_rejection, set_promises; simpl.
  by rewrite lookup_insert_eq.
Qed.

Lemma cell_observe_other (p q : PromiseRef) (w : World) :
  q <> p -> promise_cell q (observe_rejection p w) = promise_cell q w.
Proof.
  intros Hne. unfold promise_cell, observe_rejection, set_promises; simpl.
  by rewrite lookup_insert_ne.
Qed.

Lemma alloc_fresh (f : Fate) (w : World) :
  promises w !! fst (alloc_promise f w) = None.
Proof.
  unfold alloc_promise; simpl.
  apply not_elem_of_dom, is_fresh.
Qed.

Lemma cell_alloc_same (f : Fate) (w : World) :
  promise_cell (fst (alloc_promise f w)) (snd (alloc_promise f w))
  = mkPromiseCell f 0.
Proof.
  unfold promise_cell, alloc_promise, set_promises; simpl.
  by rewrite lookup_insert_eq.
Qed.

Lemma cell_alloc_other (f : Fate) (q : PromiseRef) (w : World) :
  q <> fst (alloc_promise f w) ->
  promise_cell q (snd (alloc_promise f w)) = promise_cell q w.
Proof.
  intros Hne. unfold promise_cell, alloc_promise, set_promises in *; simpl in *.
  by rewrite lookup_insert_ne.
Qed.

(** The task keeps its fate and has one more reaction on its rejection
    channel. *)
Lemma catch_noop_task (p : PromiseRef) (w : World) :
  promise_cell p (snd (Promise_catch_noop p w))
  = mkPromiseCell (fate (promise_cell p w)) (S (rejectionHandlers (promise_cell p w))).
Proof.
  unfold Promise_catch_noop.
  rewrite cell_alloc_other; [apply cell_observe_same |].
  intros Heq.
  pose proof (alloc_fresh
    match fate (promise_cell p w) with
    | NeverSettles => NeverSettles | _ => Fulfils end
    (observe_rejection p w)) as Hfresh.
  rewrite <- Heq in Hfresh.
  unfold observe_rejection, set_promises in Hfresh; simpl in Hfresh.
  by rewrite lookup_insert_eq in Hfresh.
Qed.


End PromiseFacts.

Section SchedulingClaims.

Variable funs : FunRef -> Callable.



(** C9.  A function is never an awaitable for [isPromise], whatever
    properties it carries, a [then] method included: [after] takes the
    [addCallback] path, where the host sees either nothing or the close
    registration and the drain job, never [waitUntil(task)], and a call
    that returns has put the task at the end of the queue.  [null] has
    [typeof] ['object'] and is still not an awaitable: [after] rejects it
    with the error for an argument that is neither, and changes
    nothing. *)
Theorem after_classification_edges (f : FunRef) (then_ : FunRef)
  (props : list (string * JsValue)) (s : Sys) :
  let task := JsFunction f (("then", JsFunction then_ []) :: props) in
  let result := after funs task s in
  typeof (get_prop "then" task) = TFunction
  /\ isPromise task = false
  /\ result = addCallback (TracedTask task) s
  /\ (events (snd result) = events s
      \/ events (snd result) = events s ++ [EvOnClose; EvWaitUntil WaitDrainJob])
  /\ (fst result = Normal tt /\
        afterCallbacks (this (snd result))
        = afterCallbacks (this s) ++ [TracedTask task]
      \/ (exists e, fst result = Throw e) /\ snd result = s)
  /\ typeof JsNull = TObject
  /\ isPromise JsNull = false
  /\ after funs JsNull s = (Throw (Error msg_bad_task), s).
Proof.
  intros task result. subst task result.
  split; [reflexivity |]. split; [reflexivity |]. split; [reflexivity |].
  rewrite after_function, addCallback_cases.
  destruct (afterCallbacks (this s)) eqn:Hq;
    [destruct (waitUntil (this s)), (requestStore (this s)), (onClose (this s)) |];
    cbn [fst snd]; (split; [| split; [| done]]);
    try (by left); try (by right; eauto).
  - right. unfold registered; simpl. by rewrite <- !app_assoc.
  - left. split; [done |]. unfold registered; simpl. by rewrite Hq.
  - left. split; [done |]. simpl. by rewrite Hq.
Qed.

End SchedulingClaims.

(* ===================================================================== *)
(* 11. Draining                                                          *)
(* ===================================================================== *)

Section DrainFacts.

Variable funs : FunRef -> Callable.

Lemma advance_nil (s : Sys) : advance s (world s) [] = s.
Proof. destruct s; unfold advance; simpl. by rewrite app_nil_r. Qed.

Lemma advance_advance (s : Sys) (w1 w2 : World) (e1 e2 : list Event) :
  advance (advance s w1 e1) w2 e2 = advance s w2 (e1 ++ e2).
Proof. unfold advance; simpl. by rewrite app_assoc. Qed.

Lemma emit_advance (s : Sys) (w : World) (evs : list Event) (e : Event) :
  emit e (advance s w evs) = advance s w (evs ++ [e]).
Proof. unfold emit, advance; simpl. by rewrite app_assoc. Qed.

Lemma wrapper_start_spec (view : ReadonlyRequestStore) (cb : AfterCallback)
  (s : Sys) (w : World) (evs : list Event) :
  wrapper_start funs view cb (advance s w evs)
  = let '(wr, evs', w') := callback_step funs view cb w in
    (wr, advance s w' (evs ++ evs')).
Proof.
  unfold wrapper_start, call_afterCallback, callback_step.
  destruct cb as [task]; simpl.
  destruct (call funs task (Some view) w) as [[[p|]|err] w']; simpl;
    unfold advance, emit, set_world; simpl; rewrite <- ?app_assoc; reflexivity.
Qed.

Lemma map_wrappers_spec (view : ReadonlyRequestStore) (cbs : list AfterCallback)
  (s : Sys) (w : World) (evs : list Event) :
  map_wrappers funs view cbs (advance s w evs)
  = let '(wrs, evs', w') := sync_phase funs view cbs w in
    (wrs, advance s w' (evs ++ evs')).
Proof.
  revert w evs. induction cbs as [|cb rest IH]; intros w evs; simpl.
  - by rewrite app_nil_r.
  - rewrite wrapper_start_spec.
    destruct (callback_step funs view cb w) as [[wr e1] w1].
    rewrite IH.
    destruct (sync_phase funs view rest w1) as [[wrs e2] w2].
    by rewrite app_assoc.
Qed.

Lemma resume_wrappers_spec (wrs : list Wrapper) (s : Sys) (w : World)
  (evs : list Event) :
  resume_wrappers wrs (advance s w evs)
  = (map (wrapper_outcome w) wrs,
     advance s w (evs ++ omap (wrapper_log w) wrs)).
Proof.
  revert evs. induction wrs as [|wr rest IH]; intros evs; simpl.
  - by rewrite app_nil_r.
  - destruct wr as [|p]; simpl.
    + by rewrite IH.
    + destruct (fate (promise_cell p w)) as [|err|] eqn:Hf; simpl;
        rewrite ?emit_advance, IH; simpl; rewrite ?Hf, <- ?app_assoc; done.
Qed.

(** [Promise.all] over wrappers never rejects. *)
Lemma Promise_all_wrappers (w : World) (wrs : list Wrapper) :
  Promise_all (map (wrapper_outcome w) wrs) = Fulfilled
  \/ Promise_all (map (wrapper_outcome w) wrs) = Unsettled.
Proof.
  induction wrs as [|wr rest IH]; simpl; [by left |].
  destruct wr as [|p]; simpl; [done |].
  destruct (fate (promise_cell p w)); simpl; try done.
  destruct IH as [-> | ->]; by right.
Qed.

(** The whole batch, in one equation. *)
Lemma runCallbacksImpl_spec (view : ReadonlyRequestStore) (s : Sys)
  (w : World) (evs : list Event) :
  runCallbacksImpl funs view (advance s w evs)
  = let '(wrs, evs', w') := sync_phase funs view (afterCallbacks (this s)) w in
    (Promise_all (map (wrapper_outcome w') wrs),
     advance s w' (evs ++ evs' ++ omap (wrapper_log w') wrs)).
Proof.
  unfold runCallbacksImpl.
  change (this (advance s w evs)) with (this s).
  rewrite map_wrappers_spec.
  destruct (sync_phase funs view (afterCallbacks (this s)) w) as [[wrs e1] w1].
  rewrite resume_wrappers_spec. by rewrite <- app_assoc.
Qed.

Lemma runCallbacks_spec (store : RequestStore) (s : Sys) :
  afterCallbacks (this s) <> [] ->
  runCallbacks funs (Some store) s
  = let '(view, w0) := wrapRequestStoreForAfterCallbacks store (world s) in
    let '(wrs, evs, w') := sync_phase funs view (afterCallbacks (this s)) w0 in
    (Promise_all (map (wrapper_outcome w') wrs),
     advance s w' (drain_prologue view s ++ evs ++ omap (wrapper_log w') wrs)).
Proof.
  intros Hq. unfold runCallbacks.
  rewrite bool_decide_eq_false_2 by (destruct (afterCallbacks (this s)); done).
  destruct (wrapRequestStoreForAfterCallbacks store (world s)) as [view w0].
  assert (emit (EvStorageRun view) (set_world (fun _ => w0) s)
          = advance s w0 [EvStorageRun view]) as -> by reflexivity.
  change (this (advance s w0 [EvStorageRun view])) with (this s).
  unfold drain_prologue.
  destruct (cacheScope (this s)) as [scope|];
    rewrite ?emit_advance, runCallbacksImpl_spec;
    destruct (sync_phase funs view (afterCallbacks (this s)) w0) as [[wrs e1] w1];
    done.
Qed.

End DrainFacts.

Section BatchFacts.

Variable funs : FunRef -> Callable.
Variable view : ReadonlyRequestStore.

Lemma traced_app (a b : list Event) : traced (a ++ b) = traced a ++ traced b.
Proof. apply omap_app. Qed.

Lemma storage_runs_app (a b : list Event) :
  storage_runs (a ++ b) = storage_runs a ++ storage_runs b.
Proof. apply omap_app. Qed.

Lemma waitUntil_calls_app (a b : list Event) :
  waitUntil_calls (a ++ b) = waitUntil_calls a ++ waitUntil_calls b.
Proof. apply omap_app. Qed.

Lemma console_errors_app (a b : list Event) :
  console_errors (a ++ b) = console_errors a ++ console_errors b.
Proof. apply omap_app. Qed.

Lemma close_registrations_app (a b : list Event) :
  close_registrations (a ++ b) = close_registrations a ++ close_registrations b.
Proof. apply omap_app. Qed.

(** The synchronous phase calls every callback of the queue, once, in
    queue order, and talks to nobody but the tracer and the console. *)
Lemma sync_phase_log (cbs : list AfterCallback) (w : World) :
  let '(wrs, evs, _) := sync_phase funs view cbs w in
  traced evs = map task_of cbs
  /\ storage_runs evs = []
  /\ waitUntil_calls evs = []
  /\ close_registrations evs = []
  /\ length wrs = length cbs.
Proof.
  revert w. induction cbs as [|cb rest IH]; intros w; simpl; [done |].
  assert (exists wr e1 w1, callback_step funs view cb w = (wr, e1, w1)
            /\ traced e1 = [task_of cb] /\ storage_runs e1 = []
            /\ waitUntil_calls e1 = [] /\ close_registrations e1 = [])
    as (wr & e1 & w1 & -> & Ht & Hs & Hw & Hc).
  { unfold callback_step.
    destruct (call funs (task_of cb) (Some view) w) as [[[p|]|err] w1];
      eauto 10. }
  specialize (IH w1).
  destruct (sync_phase funs view rest w1) as [[wrs e2] w2].
  destruct IH as (IH1 & IH2 & IH3 & IH4 & IH5).
  rewrite traced_app, storage_runs_app, waitUntil_calls_app,
    close_registrations_app, Ht, Hs, Hw, Hc, IH1, IH2, IH3, IH4.
  simpl. by rewrite IH5.
Qed.

Lemma wrapper_log_quiet (w : World) (wrs : list Wrapper) :
  traced (omap (wrapper_log w) wrs) = []
  /\ storage_runs (omap (wrapper_log w) wrs) = []
  /\ waitUntil_calls (omap (wrapper_log w) wrs) = []
  /\ close_registrations (omap (wrapper_log w) wrs) = [].
Proof.
  induction wrs as [|wr rest IH]; simpl; [done |].
  destruct wr as [|p]; simpl; [done |].
  destruct (fate (promise_cell p w)); simpl; done.
Qed.

Lemma drain_prologue_log (s : Sys) :
  traced (drain_prologue view s) = []
  /\ storage_runs (drain_prologue view s) = [view]
  /\ waitUntil_calls (drain_prologue view s) = []
  /\ close_registrations (drain_prologue view s) = [].
Proof. unfold drain_prologue. destruct (cacheScope (this s)); done. Qed.

End BatchFacts.

Section HostFacts.

Variable funs : FunRef -> Callable.

(** A drain pass leaves the context, the listeners and the microtasks
    alone, whatever the store and the queue. *)
Lemma runCallbacks_frame (store : option RequestStore) (s : Sys) :
  exists w evs, snd (runCallbacks funs store s) = advance s w evs.
Proof.
  destruct (afterCallbacks (this s)) as [|cb q] eqn:Hq.
  - exists (world s), []. unfold runCallbacks. rewrite Hq. simpl.
    by rewrite advance_nil.
  - destruct store as [store|].
    + rewrite runCallbacks_spec by (rewrite Hq; done).
      destruct (wrapRequestStoreForAfterCallbacks store (world s)) as [view w0].
      destruct (sync_phase funs view (afterCallbacks (this s)) w0) as [[wrs e1] w1].
      eauto.
    + exists (world s), []. unfold runCallbacks. rewrite Hq. simpl.
      by rewrite advance_nil.
Qed.

Lemma run_microtask_frame (k : Continuation) (s : Sys) :
  exists w evs, run_microtask funs k s = advance s w evs.
Proof.
  destruct k. unfold run_microtask.
  destruct (runCallbacks_frame (requestStore (this s)) s) as (w & evs & H).
  destruct (runCallbacks funs (requestStore (this s)) s) as [out s']; simpl in H.
  subst s'. destruct out; rewrite ?emit_advance; eauto.
Qed.

Lemma fold_microtasks_frame (ks : list Continuation) (s : Sys) :
  exists w evs,
    fold_left (fun acc k => run_microtask funs k acc) ks s = advance s w evs.
Proof.
  revert s. induction ks as [|k ks IH]; intros s; simpl.
  - exists (world s), []. by rewrite advance_nil.
  - destruct (run_microtask_frame k s) as (w1 & e1 & ->).
    destruct (IH (advance s w1 e1)) as (w2 & e2 & ->).
    rewrite advance_advance. eauto.
Qed.

(** The close signal never touches the context. *)
Lemma close_this (s : Sys) : this (close funs s) = this s.
Proof.
  unfold close, run_microtasks.
  destruct (fold_microtasks_frame (microtasks (host_close s))
              (set_microtasks (fun _ => []) (host_close s))) as (w & evs & ->).
  reflexivity.
Qed.

Lemma close_idle (s : Sys) :
  closeListeners s = [] -> microtasks s = [] -> close funs s = s.
Proof.
  destruct s as [c w ev cl mt]; simpl. intros -> ->. reflexivity.
Qed.

Lemma close_listeners_gone (s : Sys) :
  closeListeners (close funs s) = [] /\ microtasks (close funs s) = [].
Proof.
  unfold close, run_microtasks.
  destruct (fold_microtasks_frame (microtasks (host_close s))
              (set_microtasks (fun _ => []) (host_close s))) as (w & evs & ->).
  done.
Qed.

(** The close signal with exactly the drain job waiting for it. *)
Lemma close_one_job (s : Sys) :
  closeListeners s = [ResumeRunCallbacksOnClose] ->
  microtasks s = [] ->
  close funs s
  = run_microtask funs ResumeRunCallbacksOnClose
      (set_closeListeners (fun _ => []) s).
Proof.
  destruct s as [c w ev cl mt]; simpl. intros -> ->. reflexivity.
Qed.

End HostFacts.

Section SchedulingMany.

Variable funs : FunRef -> Callable.

Lemma after_callable (task : JsValue) (s : Sys) :
  typeof task = TFunction ->
  after funs task s = addCallback (TracedTask task) s.
Proof. destruct task; try done. Qed.

(** Once the queue is not empty, scheduling functions only appends. *)
Lemma after_all_append (tasks : list JsValue) (s : Sys) :
  Forall (fun t => typeof t = TFunction) tasks ->
  afterCallbacks (this s) <> [] ->
  after_all funs tasks s
  = (Normal tt, with_queue (afterCallbacks (this s) ++ map TracedTask tasks) s).
Proof.
  intros Hall. revert s. induction Hall as [|task rest Ht _ IH]; intros s Hq; simpl.
  - unfold ret, with_queue, set_this. destruct s as [[wu oc cs rs q] w ev cl mt]; simpl.
    by rewrite app_nil_r.
  - unfold bind. rewrite (after_callable _ _ Ht), addCallback_cases.
    destruct (afterCallbacks (this s)) as [|cb q] eqn:E; [done |].
    rewrite IH; simpl; [| rewrite E; done].
    unfold with_queue, set_this; simpl. by rewrite E, <- app_assoc.
Qed.

(** Scheduling on a fresh queue: the first call registers the drain job,
    all calls queue. *)
Lemma after_all_first (task : JsValue) (rest : list JsValue) (s : Sys) :
  Forall (fun t => typeof t = TFunction) (task :: rest) ->
  afterCallbacks (this s) = [] ->
  is_Some (waitUntil (this s)) ->
  is_Some (requestStore (this s)) ->
  is_Some (onClose (this s)) ->
  after_all funs (task :: rest) s
  = (Normal tt,
     with_queue (map TracedTask (task :: rest)) (registered (TracedTask task) s)).
Proof.
  intros Hall Hq [wu Hwu] [rs Hrs] [oc Hoc].
  inversion Hall as [|? ? Ht Hrest]; subst. simpl.
  unfold bind. rewrite (after_callable _ _ Ht), addCallback_cases, Hq, Hwu, Hrs, Hoc.
  rewrite after_all_append; [| done |].
  - unfold with_queue, registered, set_this; simpl. by rewrite Hq.
  - unfold registered; simpl. rewrite Hq. done.
Qed.

End SchedulingMany.

Section Execution.

Variable funs : FunRef -> Callable.

(** The world a drain pass leaves is the one obtained by executing the
    body of every queued function once, in queue order. *)
Lemma sync_phase_world (view : ReadonlyRequestStore) (tasks : list JsValue)
  (w : World) :
  Forall (fun t => typeof t = TFunction) tasks ->
  snd (sync_phase funs view (map TracedTask tasks) w)
  = fold_left (run_body funs view) (omap fun_ref tasks) w.
Proof.
  intros Hall. revert w.
  induction Hall as [|task rest Ht _ IH]; intros w; [reflexivity |].
  destruct task as [| | | | | | |f props]; try discriminate.
  cbn [map sync_phase omap list_omap fun_ref fold_left].
  unfold callback_step, run_body. cbn [task_of call].
  destruct (funs f (Some view) w) as [[[p|]|err] w1];
    match goal with
    | |- context [sync_phase funs view (map TracedTask rest) ?x] =>
        specialize (IH x);
        destruct (sync_phase funs view (map TracedTask rest) x) as [[wrs e2] w2]
    end;
    exact IH.
Qed.

Lemma task_of_traced (tasks : list JsValue) :
  map task_of (map TracedTask tasks) = tasks.
Proof. induction tasks as [|t l IH]; [reflexivity |]. simpl. by rewrite IH. Qed.

End Execution.

Section DrainOnce.

Variable funs : FunRef -> Callable.

(** C3.  On a context with [waitUntil], [onClose] and a request store,
    an empty queue and nothing pending at the host, scheduling [N >= 1]
    functions returns normally every time and leaves all of them queued
    in order; the host has seen one [onClose] registration and one
    [waitUntil] call, with the drain job, and no callback has run: the
    world is untouched.  The close signal then starts one drain pass, under
    the wrapped request store, which calls the N callbacks, each once, in
    queue order, and executes them: the world it leaves is the one obtained
    by running the body of the first function on the world wrapping left,
    the body of the second on the result, and so on through all N.  A
    further close signal does nothing. *)
Theorem drain_once_all_callbacks (tasks : list JsValue) (store : RequestStore)
  (s : Sys) :
  tasks <> [] ->
  Forall (fun t => typeof t = TFunction) tasks ->
  afterCallbacks (this s) = [] ->
  is_Some (waitUntil (this s)) ->
  requestStore (this s) = Some store ->
  is_Some (onClose (this s)) ->
  closeListeners s = [] ->
  microtasks s = [] ->
  let s1 := snd (after_all funs tasks s) in
  let s2 := close funs s1 in
  let view := fst (wrapRequestStoreForAfterCallbacks store (world s)) in
  let w0 := snd (wrapRequestStoreForAfterCallbacks store (world s)) in
  fst (after_all funs tasks s) = Normal tt
  /\ afterCallbacks (this s1) = map TracedTask tasks
  /\ events s1 = events s ++ [EvOnClose; EvWaitUntil WaitDrainJob]
  /\ world s1 = world s
  /\ waitUntil_calls (events s2) = waitUntil_calls (events s) ++ [WaitDrainJob]
  /\ close_registrations (events s2) = close_registrations (events s) ++ [tt]
  /\ length (storage_runs (events s2)) = S (length (storage_runs (events s)))
  /\ traced (events s2) = traced (events s) ++ tasks
  /\ close funs s2 = s2
  /\ storage_runs (events s2) = storage_runs (events s) ++ [view]
  /\ length (omap fun_ref tasks) = length tasks
  /\ world s2 = fold_left (run_body funs view) (omap fun_ref tasks) w0.
Proof.
  intros Hne Hall Hq Hwu Hrs Hoc Hcl Hmt s1 s2 view w0.
  destruct tasks as [|task rest]; [done |].
  subst s2 s1 view w0.
  rewrite (after_all_first funs task rest s Hall Hq Hwu
             (ex_intro _ store Hrs) Hoc).
  cbn [fst snd].
  set (s1 := with_queue (map TracedTask (task :: rest))
               (registered (TracedTask task) s)).
  assert (events s1 = events s ++ [EvOnClose; EvWaitUntil WaitDrainJob]) as Hev.
  { unfold s1, registered; simpl. by rewrite <- app_assoc. }
  assert (afterCallbacks (this s1) = map TracedTask (task :: rest)) as Hq1
    by reflexivity.
  assert (requestStore (this s1) = Some store) as Hrs1 by exact Hrs.
  assert (world s1 = world s) as Hw1 by reflexivity.
  split; [done |]. split; [done |]. split; [done |]. split; [done |].
  assert (closeListeners s1 = [ResumeRunCallbacksOnClose]) as Hcl1.
  { unfold s1, registered; simpl. by rewrite Hcl. }
  assert (microtasks s1 = []) as Hmt1 by (unfold s1, registered; simpl; done).
  pose proof (close_listeners_gone funs s1) as [Hcl2 Hmt2].
  rewrite (close_idle funs (close funs s1)) by done.
  rewrite close_one_job by done.
  unfold run_microtask.
  set (s1' := set_closeListeners (fun _ => []) s1).
  assert (events s1' = events s1) as Hev' by reflexivity.
  change (this s1') with (this s1). rewrite Hrs1.
  rewrite runCallbacks_spec by (change (this s1') with (this s1); rewrite Hq1; done).
  change (this s1') with (this s1). change (world s1') with (world s1).
  rewrite Hw1.
  destruct (wrapRequestStoreForAfterCallbacks store (world s)) as [view w0].
  cbn [fst snd].
  pose proof (sync_phase_log funs view (afterCallbacks (this s1)) w0) as Hlog.
  pose proof (sync_phase_world funs view (task :: rest) w0 Hall) as Hworld.
  rewrite <- Hq1 in Hworld.
  destruct (sync_phase funs view (afterCallbacks (this s1)) w0) as [[wrs e1] w1].
  destruct Hlog as (Ht & Hs & Hw & Hc & _). cbn [snd] in Hworld.
  pose proof (wrapper_log_quiet w1 wrs) as (Lt & Ls & Lw & Lc).
  pose proof (drain_prologue_log view s1') as (Pt & Ps & Pw & Pc).
  assert (forall out : Settlement,
    let s2 := match out with
              | Unsettled => advance s1' w1 (drain_prologue view s1' ++ e1 ++ omap (wrapper_log w1) wrs)
              | _ => emit (EvDrainJobSettled out)
                       (advance s1' w1 (drain_prologue view s1' ++ e1 ++ omap (wrapper_log w1) wrs))
              end in
    world s2 = w1
    /\ exists tail,
      events s2 = events s1 ++ drain_prologue view s1' ++ e1
                    ++ omap (wrapper_log w1) wrs ++ tail
      /\ traced tail = [] /\ storage_runs tail = []
      /\ waitUntil_calls tail = [] /\ close_registrations tail = []) as Hout.
  { intros [|e|]; cbv zeta; (split; [reflexivity |]).
    - exists [EvDrainJobSettled Fulfilled]. split; [| done].
      unfold emit, advance; cbn [events]. rewrite Hev'. by rewrite <- !app_assoc.
    - exists [EvDrainJobSettled (Rejected e)]. split; [| done].
      unfold emit, advance; cbn [events]. rewrite Hev'. by rewrite <- !app_assoc.
    - exists []. split; [| done].
      unfold advance; cbn [events]. rewrite Hev'. by rewrite !app_nil_r. }
  destruct (Hout (Promise_all (map (wrapper_outcome w1) wrs)))
    as (-> & tail & -> & Tt & Ts & Tw & Tc).
  rewrite Hev.
  rewrite !waitUntil_calls_app, !close_registrations_app, !storage_runs_app,
    !traced_app.
  rewrite Ht, Hs, Hw, Hc, Lt, Ls, Lw, Lc, Pt, Ps, Pw, Pc, Tt, Ts, Tw, Tc, Hq1.
  rewrite task_of_traced.
  simpl app. rewrite !app_nil_r.
  assert (length (omap fun_ref (task :: rest)) = length (task :: rest)) as Hlen.
  { clear -Hall. induction Hall as [|t l Ht _ IH]; [reflexivity |].
    destruct t; try discriminate. simpl. f_equal. exact IH. }
  split_and!; try done.
  rewrite length_app. simpl. lia.
Qed.

End DrainOnce.

Section Isolation.

Variable funs : FunRef -> Callable.

(** The callbacks after a prefix run from the world the prefix left,
    whatever happened in it. *)
Lemma sync_phase_app (view : ReadonlyRequestStore) (pre post : list AfterCallback)
  (w : World) :
  sync_phase funs view (pre ++ post) w
  = let '(wrs1, e1, w1) := sync_phase funs view pre w in
    let '(wrs2, e2, w2) := sync_phase funs view post w1 in
    (wrs1 ++ wrs2, e1 ++ e2, w2).
Proof.
  revert w. induction pre as [|cb pre IH]; intros w; simpl.
  - by destruct (sync_phase funs view post w) as [[wrs2 e2] w2].
  - destruct (callback_step funs view cb w) as [[wr e0] w0].
    rewrite IH.
    destruct (sync_phase funs view pre w0) as [[wrs1 e1] w1].
    destruct (sync_phase funs view post w1) as [[wrs2 e2] w2].
    by rewrite app_assoc.
Qed.

Lemma elem_of_console_errors (err : JsError) (label : string) (evs : list Event) :
  EvConsoleError label err ∈ evs -> err ∈ console_errors evs.
Proof.
  intros Hin. unfold console_errors. apply list_elem_of_omap.
  exists (EvConsoleError label err). done.
Qed.

(** A wrapper suspended on a promise that rejects logs the reason when it
    resumes. *)
Lemma wrapper_log_rejected (w : World) (wrs : list Wrapper) (p : PromiseRef)
  (err : JsError) :
  WrapperAwaits p ∈ wrs ->
  fate (promise_cell p w) = Rejects err ->
  EvConsoleError msg_console_label err ∈ omap (wrapper_log w) wrs.
Proof.
  intros Hin Hf. apply list_elem_of_omap.
  exists (WrapperAwaits p). split; [done |]. simpl. by rewrite Hf.
Qed.

(** A drain pass over a queue split around one of its callbacks: the
    outcome, the calls, the world, and what the callback in the middle
    leaves on the console when it fails. *)
Lemma drain_split (store : RequestStore) (s : Sys)
  (pre post : list AfterCallback) (cb : AfterCallback) :
  afterCallbacks (this s) = pre ++ cb :: post ->
  let result := runCallbacks funs (Some store) s in
  let view := fst (wrapRequestStoreForAfterCallbacks store (world s)) in
  let w0 := snd (wrapRequestStoreForAfterCallbacks store (world s)) in
  let w_pre := snd (sync_phase funs view pre w0) in
  let w_cb := snd (callback_step funs view cb w_pre) in
  (fst result = Fulfilled \/ fst result = Unsettled)
  /\ traced (events (snd result))
     = traced (events s) ++ map task_of (pre ++ cb :: post)
  /\ world (snd result) = snd (sync_phase funs view post w_cb)
  /\ this (snd result) = this s
  /\ match call funs (task_of cb) (Some view) w_pre with
     | (Throw err, _) => err ∈ console_errors (events (snd result))
     | (Normal (Some p), _) =>
         forall err, fate (promise_cell p (world (snd result))) = Rejects err ->
                     err ∈ console_errors (events (snd result))
     | (Normal None, _) => True
     end.
Proof.
  intros Hq result view w0 w_pre w_cb. subst result.
  rewrite runCallbacks_spec by (rewrite Hq; by destruct pre).
  subst w_cb w_pre view w0.
  destruct (wrapRequestStoreForAfterCallbacks store (world s)) as [view w0].
  cbn [fst snd].
  pose proof (sync_phase_log funs view (afterCallbacks (this s)) w0) as Hlog.
  rewrite Hq in *. rewrite sync_phase_app in *.
  destruct (sync_phase funs view pre w0) as [[wrs1 e1] w1]. cbn [snd].
  cbn [sync_phase] in *.
  destruct (callback_step funs view cb w1) as [[wr e0] w2] eqn:Hstep. cbn [snd].
  destruct (sync_phase funs view post w2) as [[wrs2 e2] w3]. cbn [fst snd].
  destruct Hlog as (Ht & _).
  pose proof (wrapper_log_quiet w3 (wrs1 ++ wr :: wrs2)) as (Lt & _).
  pose proof (drain_prologue_log view s) as (Pt & _).
  split; [apply Promise_all_wrappers |].
  split.
  { unfold advance; cbn [events]. rewrite !traced_app in Ht. rewrite !traced_app.
    rewrite Ht, Lt, Pt. by rewrite app_nil_r. }
  split; [done |]. split; [done |].
  unfold callback_step in Hstep.
  destruct (call funs (task_of cb) (Some view) w1) as [[[p|]|err] w2'];
    injection Hstep as <- <- <-; [| done |].
  - intros err Hf. unfold advance in *; cbn [events world] in *.
    apply elem_of_console_errors with msg_console_label.
    rewrite !elem_of_app. right. right. right.
    apply wrapper_log_rejected with p; [| done].
    rewrite elem_of_app. right. apply list_elem_of_here.
  - unfold advance; cbn [events].
    apply elem_of_console_errors with msg_console_label.
    rewrite !elem_of_app. right. right. left. right. left.
    apply list_elem_of_further, list_elem_of_here.
Qed.

End Isolation.

Section DrainClaims.

Variable funs : FunRef -> Callable.

(** C4.  A drain pass over any queue, seen from any one of its
    callbacks [cb], with any callbacks before and after it: the promise
    of the batch is fulfilled or still unsettled, never rejected; every
    callback of the queue has been called, once, in order; the world is
    the one the callbacks after [cb] leave when they run from the world
    [cb] left, whether [cb] threw or not; and when [cb] throws, or
    returns a promise that rejects, the reason is on the console. *)
Theorem drain_failures_isolated (store : RequestStore) (s : Sys)
  (pre post : list AfterCallback) (cb : AfterCallback) :
  afterCallbacks (this s) = pre ++ cb :: post ->
  let result := runCallbacks funs (Some store) s in
  let view := fst (wrapRequestStoreForAfterCallbacks store (world s)) in
  let w0 := snd (wrapRequestStoreForAfterCallbacks store (world s)) in
  let w_pre := snd (sync_phase funs view pre w0) in
  let w_cb := snd (callback_step funs view cb w_pre) in
  (forall e, fst result <> Rejected e)
  /\ (fst result = Fulfilled \/ fst result = Unsettled)
  /\ traced (events (snd result))
     = traced (events s) ++ map task_of (pre ++ cb :: post)
  /\ world (snd result) = snd (sync_phase funs view post w_cb)
  /\ match call funs (task_of cb) (Some view) w_pre with
     | (Throw err, _) => err ∈ console_errors (events (snd result))
     | (Normal (Some p), _) =>
         forall err, fate (promise_cell p (world (snd result))) = Rejects err ->
                     err ∈ console_errors (events (snd result))
     | (Normal None, _) => True
     end.
Proof.
  intros Hq. cbv zeta.
  destruct (drain_split funs store s pre post cb Hq) as (Hout & Ht & Hw & _ & Hlog).
  split_and!; try done.
  intros e He. destruct Hout as [Hout | Hout]; rewrite Hout in He; done.
Qed.

(** C6.  In the store a drain pass runs under, [afterContext.after] and
    [afterContext.run] throw for every argument list.  A queued function
    whose body calls one of them and lets the exception through changes
    nothing: its error goes to the console, every callback of the queue
    is still called, the callbacks after it run from the world the ones
    before it left, and the batch does not reject. *)
Theorem nested_scheduling_rejected (store : RequestStore) (s : Sys)
  (pre post : list AfterCallback) (f : FunRef) (props : list (string * JsValue))
  (use_run : bool) (args : list JsValue) :
  afterCallbacks (this s) = pre ++ TracedTask (JsFunction f props) :: post ->
  (forall v w, funs f (Some v) w = (call_entry_point use_run v args, w)) ->
  let result := runCallbacks funs (Some store) s in
  let view := fst (wrapRequestStoreForAfterCallbacks store (world s)) in
  let w0 := snd (wrapRequestStoreForAfterCallbacks store (world s)) in
  let w_pre := snd (sync_phase funs view pre w0) in
  (forall args', nested_after (afterContext view) args' = Throw (nesting_error false))
  /\ (forall args', nested_run (afterContext view) args' = Throw (nesting_error true))
  /\ nesting_error use_run ∈ console_errors (events (snd result))
  /\ (forall e, fst result <> Rejected e)
  /\ traced (events (snd result))
     = traced (events s)
       ++ map task_of (pre ++ TracedTask (JsFunction f props) :: post)
  /\ world (snd result) = snd (sync_phase funs view post w_pre).
Proof.
  intros Hq Hf. cbv zeta.
  destruct (drain_split funs store s pre post _ Hq) as (Hout & Ht & Hw & _ & Hlog).
  revert Hout Ht Hw Hlog.
  unfold callback_step. cbn [task_of call]. rewrite Hf.
  unfold wrapRequestStoreForAfterCallbacks.
  destruct (new_Headers (world s)) as [h w0]. cbn [fst snd].
  unfold call_entry_point. cbn [afterContext nested_after nested_run].
  intros Hout Ht Hw Hlog.
  split; [done |]. split; [done |].
  split; [by destruct use_run |].
  split; [intros e He; destruct Hout as [Hout | Hout]; rewrite Hout in He; done |].
  split; [done |].
  by destruct use_run.
Qed.

End DrainClaims.

Section ReadonlyStore.

Variable funs : FunRef -> Callable.

(** Cookie writers only ever touch the [Headers] object their store's
    [mutableCookies] is bound to. *)
Lemma cookie_writers_phase (view : ReadonlyRequestStore)
  (cbs : list AfterCallback) (w : World) :
  Forall (writes_cookie funs) cbs ->
  let '(wrs, evs, w') := sync_phase funs view cbs w in
  Forall (fun wr => wr = WrapperDone) wrs
  /\ console_errors evs = []
  /\ promises w' = promises w
  /\ effects w' = effects w
  /\ forall h, h <> rc_headers (mutableCookies view) ->
               headersHeap w' !! h = headersHeap w !! h.
Proof.
  intros Hall. revert w.
  induction Hall as [|cb rest (f & props & name & value & -> & Hf) _ IH];
    intros w; simpl; [done |].
  unfold callback_step. cbn [task_of call]. rewrite Hf.
  specialize (IH (ResponseCookies_set (mutableCookies view) name value w)).
  destruct (sync_phase funs view rest
              (ResponseCookies_set (mutableCookies view) name value w))
    as [[wrs evs] w'].
  destruct IH as (Hwrs & Hlog & Hp & He & Hh).
  split_and!; try done.
  - by constructor.
  - intros h Hne. rewrite Hh by done.
    unfold ResponseCookies_set, set_headersHeap; simpl.
    by rewrite lookup_insert_ne.
Qed.

Lemma all_done_fulfilled (w : World) (wrs : list Wrapper) :
  Forall (fun wr => wr = WrapperDone) wrs ->
  Promise_all (map (wrapper_outcome w) wrs) = Fulfilled
  /\ omap (wrapper_log w) wrs = [].
Proof. induction 1 as [|wr rest -> _ [IH1 IH2]]; simpl; done. Qed.

(** C7.  The store built for a drain pass has the [headers], [cookies],
    [draftMode], [assetPrefix] and [reactLoadableManifest] of the request
    store, and a [mutableCookies] bound to a [Headers] object that did
    not exist before and is empty.  A drain pass whose callbacks all write
    cookies through their store fulfils with nothing on the console, and
    afterwards every [Headers] object that existed before it, the one
    behind the request store's own [mutableCookies] included, holds what
    it held; promises and other effects are as they were. *)
Theorem readonly_store_discards_cookie_writes (store : RequestStore) (s : Sys) :
  afterCallbacks (this s) <> [] ->
  Forall (writes_cookie funs) (afterCallbacks (this s)) ->
  let result := runCallbacks funs (Some store) s in
  let view := fst (wrapRequestStoreForAfterCallbacks store (world s)) in
  let w0 := snd (wrapRequestStoreForAfterCallbacks store (world s)) in
  (headers view = headers store
   /\ cookies view = cookies store
   /\ draftMode view = draftMode store
   /\ assetPrefix view = assetPrefix store
   /\ reactLoadableManifest view = reactLoadableManifest store)
  /\ headersHeap (world s) !! rc_headers (mutableCookies view) = None
  /\ headersHeap w0 !! rc_headers (mutableCookies view) = Some []
  /\ fst result = Fulfilled
  /\ console_errors (events (snd result)) = console_errors (events s)
  /\ (forall h, is_Some (headersHeap (world s) !! h) ->
                headersHeap (world (snd result)) !! h = headersHeap (world s) !! h)
  /\ promises (world (snd result)) = promises (world s)
  /\ effects (world (snd result)) = effects (world s).
Proof.
  intros Hne Hall. cbv zeta.
  rewrite runCallbacks_spec by done.
  unfold wrapRequestStoreForAfterCallbacks, new_Headers.
  set (h := fresh (dom (headersHeap (world s)))).
  set (w0 := set_headersHeap <[h:=[]]> (world s)).
  set (view := mkRequestStore _ _ _ _ _ _ _).
  cbn [fst snd].
  assert (headersHeap (world s) !! h = None) as Hfresh
    by apply not_elem_of_dom, is_fresh.
  pose proof (cookie_writers_phase view (afterCallbacks (this s)) w0 Hall) as Hph.
  destruct (sync_phase funs view (afterCallbacks (this s)) w0) as [[wrs evs] w'].
  destruct Hph as (Hwrs & Hlog & Hp & He & Hh).
  destruct (all_done_fulfilled w' wrs Hwrs) as [Hout Hquiet].
  cbn [fst snd]. rewrite Hout, Hquiet.
  split; [done |]. split; [done |].
  split; [subst w0; unfold set_headersHeap; simpl; by rewrite lookup_insert_eq |].
  split; [done |].
  split.
  { unfold advance; cbn [events]. rewrite !console_errors_app, Hlog.
    unfold drain_prologue. destruct (cacheScope (this s)); simpl;
      by rewrite app_nil_r. }
  split; [| done].
  intros k [lines Hk]. unfold advance; cbn [world].
  assert (k <> h) as Hkh by (intros ->; congruence).
  rewrite Hh by done.
  subst w0. unfold set_headersHeap; simpl. by rewrite lookup_insert_ne.
Qed.

End ReadonlyStore.

(* ===================================================================== *)
(* 12. Where the code and the specification part ways                    *)
(* ===================================================================== *)

Lemma run_cases {T} (store : RequestStore) (callback : M T) (s : Sys) :
  run store callback s = callback (entered store s).
Proof.
  unfold run, entered, cacheScope_run. unfold_m. simpl.
  destruct (cacheScope (this s)); reflexivity.
Qed.

Section NotSpent.

Variable funs : FunRef -> Callable.

(** C1, as the code has it.  The close signal and the drain pass it
    starts leave the context as it was: the queue still holds the
    callbacks that ran.  [run] on the drained context stores the request
    store and gives back what its callback gives back; [after] with a
    function returns normally and puts the function at the end of the
    queue, and the host hears nothing of it: no drain job is registered
    for it. *)
Theorem drained_context_still_open {T} (s : Sys) (store : RequestStore)
  (callback : M T) (f : FunRef) (props : list (string * JsValue)) :
  afterCallbacks (this s) <> [] ->
  let s' := close funs s in
  let task := JsFunction f props in
  this s' = this s
  /\ run store callback s' = callback (entered store s')
  /\ after funs task s'
     = (Normal tt, set_this (push_afterCallback (TracedTask task)) s')
  /\ events (snd (after funs task s')) = events s'
  /\ closeListeners (snd (after funs task s')) = []
  /\ microtasks (snd (after funs task s')) = [].
Proof.
  intros Hq s' task.
  pose proof (close_this funs s) as Hthis.
  pose proof (close_listeners_gone funs s) as [Hcl Hmt].
  fold s' in Hthis, Hcl, Hmt.
  assert (after funs task s'
          = (Normal tt, set_this (push_afterCallback (TracedTask task)) s')) as Hafter.
  { subst task. rewrite after_function, addCallback_cases, Hthis.
    by destruct (afterCallbacks (this s)). }
  rewrite Hafter. split_and!; try done. apply run_cases.
Qed.

(** C2, as the code has it.  With the queue empty, scheduling a function
    when [waitUntil] is absent, or when [onClose] is absent on a context
    whose request store is set, throws at that call, with the error
    naming [waitUntil] in the first case (whatever else is missing) and
    [onClose] in the second; the state is exactly the one before the
    call: nothing was registered with the host and the function was not
    queued. *)
Theorem first_callback_missing_capability (f : FunRef)
  (props : list (string * JsValue)) (s : Sys) :
  afterCallbacks (this s) = [] ->
  waitUntil (this s) = None
  \/ (is_Some (requestStore (this s)) /\ onClose (this s) = None) ->
  let msg := if defined (waitUntil (this s))
             then msg_onClose_unavailable else msg_waitUntil_unavailable in
  after funs (JsFunction f props) s = (Throw (Error msg), s)
  /\ afterCallbacks (this (snd (after funs (JsFunction f props) s))) = []
  /\ events (snd (after funs (JsFunction f props) s)) = events s
  /\ Str.includes msg_waitUntil_unavailable "`waitUntil`" = true
  /\ Str.includes msg_waitUntil_unavailable "`onClose`" = false
  /\ Str.includes msg_onClose_unavailable "`onClose`" = true
  /\ Str.includes msg_onClose_unavailable "`waitUntil`" = false.
Proof.
  intros Hq Hmissing msg. subst msg.
  rewrite after_function, addCallback_cases, Hq.
  destruct Hmissing as [-> | [[rs ->] ->]].
  - simpl. split_and!; done.
  - destruct (waitUntil (this s)); simpl; split_and!; done.
Qed.

End NotSpent.

(** C1, the part that fails: on a context whose drain pass is over, [run]
    returns what its callback returns and [after] returns normally with
    the function queued behind the ones that already ran; neither
    throws. *)
Lemma drained_context_accepts_run_and_after :
  console_errors (events Demo.drained) = [Error "boom"]
  /\ effects (world Demo.drained) = [1; 3]
  /\ fst (run Demo.store (ret 42) Demo.drained) = Normal 42
  /\ fst (after Demo.funs (Demo.fn 1) Demo.drained) = Normal tt
  /\ afterCallbacks (this (snd (after Demo.funs (Demo.fn 1) Demo.drained)))
     = map TracedTask [Demo.fn 1; Demo.fn 2; Demo.fn 3; Demo.fn 1]
  /\ ~ (exists e, fst (run Demo.store (ret 42) Demo.drained) = Throw e)
  /\ ~ (exists e, fst (after Demo.funs (Demo.fn 1) Demo.drained) = Throw e).
Proof.
  assert (fst (run Demo.store (ret 42) Demo.drained) = Normal 42) as Hrun
    by (vm_compute; reflexivity).
  assert (fst (after Demo.funs (Demo.fn 1) Demo.drained) = Normal tt) as Hafter
    by (vm_compute; reflexivity).
  split_and!; try (vm_compute; reflexivity); try done.
  - intros [e He]. rewrite Hrun in He. done.
  - intros [e He]. rewrite Hafter in He. done.
Qed.

(** C2, the part that fails: with [waitUntil] absent the first function
    scheduled makes [after] throw before the function reaches the queue,
    which is still empty afterwards. *)
Lemma first_callback_not_queued_on_throw :
  let s := Demo.sys None (Some host_onClose) (Some Demo.store) [] in
  let result := after Demo.funs (Demo.fn 1) s in
  fst result = Throw (Error msg_waitUntil_unavailable)
  /\ afterCallbacks (this (snd result)) = []
  /\ ~ TracedTask (Demo.fn 1) ∈ afterCallbacks (this (snd result)).
Proof.
  cbv zeta. unfold Demo.fn. rewrite after_function, addCallback_cases. simpl.
  split_and!; try done. apply not_elem_of_nil.
Qed.



(* ===================================================================== *)
(* 13. The theorems at the concrete request                              *)
(* ===================================================================== *)


(** C3 at three functions scheduled on the ready context: the first and
    the third leave their marks, in that order, although the second
    throws. *)
Lemma drain_once_all_callbacks_witness :
  let tasks := [Demo.fn 1; Demo.fn 2; Demo.fn 3] in
  let s1 := snd (after_all Demo.funs tasks Demo.ready) in
  tasks <> []
  /\ Forall (fun t => typeof t = TFunction) tasks
  /\ requestStore (this Demo.ready) = Some Demo.store
  /\ events s1 = [EvOnClose; EvWaitUntil WaitDrainJob]
  /\ effects (world s1) = []
  /\ waitUntil_calls (events (close Demo.funs s1)) = [WaitDrainJob]
  /\ length (storage_runs (events (close Demo.funs s1))) = 1
  /\ traced (events (close Demo.funs s1)) = tasks
  /\ effects (world (close Demo.funs s1)) = [1; 3].
Proof.
  cbv zeta.
  assert ([Demo.fn 1; Demo.fn 2; Demo.fn 3] <> []) as Hne by discriminate.
  assert (Forall (fun t => typeof t = TFunction) [Demo.fn 1; Demo.fn 2; Demo.fn 3])
    as Hall by (repeat constructor).
  destruct (drain_once_all_callbacks Demo.funs [Demo.fn 1; Demo.fn 2; Demo.fn 3]
              Demo.store Demo.ready Hne Hall eq_refl
              (ex_intro _ host_waitUntil eq_refl)
              eq_refl
              (ex_intro _ host_onClose eq_refl)
              eq_refl eq_refl)
    as (_ & _ & Hev & Hw1 & Hwu & _ & Hruns & Htraced & _ & _ & _ & Hworld).
  split; [exact Hne |]. split; [exact Hall |]. split; [reflexivity |].
  split; [exact Hev |].
  split; [rewrite Hw1; reflexivity |].
  split; [exact Hwu |].
  split; [exact Hruns |]. split; [exact Htraced |].
  rewrite Hworld. vm_compute. reflexivity.
Defined.

(** C4 at a queue whose second callback throws. *)
Lemma drain_failures_isolated_witness :
  let s := Demo.sys (Some host_waitUntil) (Some host_onClose) (Some Demo.store)
             (map TracedTask [Demo.fn 1; Demo.fn 2; Demo.fn 3]) in
  let result := runCallbacks Demo.funs (Some Demo.store) s in
  afterCallbacks (this s)
    = [TracedTask (Demo.fn 1)] ++ TracedTask (Demo.fn 2) :: [TracedTask (Demo.fn 3)]
  /\ (forall e, fst result <> Rejected e)
  /\ Error "boom" ∈ console_errors (events (snd result))
  /\ effects (world (snd result)) = [1; 3].
Proof.
  cbv zeta.
  destruct (drain_failures_isolated Demo.funs Demo.store
              (Demo.sys (Some host_waitUntil) (Some host_onClose) (Some Demo.store)
                 (map TracedTask [Demo.fn 1; Demo.fn 2; Demo.fn 3]))
              [TracedTask (Demo.fn 1)] [TracedTask (Demo.fn 3)]
              (TracedTask (Demo.fn 2)) eq_refl)
    as (Hnever & _ & _ & Hworld & Hlog).
  split; [reflexivity |]. split; [exact Hnever |].
  split; [exact Hlog |].
  rewrite Hworld. vm_compute. reflexivity.
Defined.

(** C6 at a queue whose second callback calls [after]. *)
Lemma nested_scheduling_rejected_witness :
  let s := Demo.sys (Some host_waitUntil) (Some host_onClose) (Some Demo.store)
             (map TracedTask [Demo.fn 1; Demo.fn 4; Demo.fn 3]) in
  let result := runCallbacks Demo.funs (Some Demo.store) s in
  afterCallbacks (this s)
    = [TracedTask (Demo.fn 1)] ++ TracedTask (JsFunction 4 []) :: [TracedTask (Demo.fn 3)]
  /\ (forall v w, Demo.funs 4 (Some v) w
                  = (call_entry_point false v [JsFunction 1 []], w))
  /\ nesting_error false ∈ console_errors (events (snd result))
  /\ (forall e, fst result <> Rejected e)
  /\ effects (world (snd result)) = [1; 3].
Proof.
  cbv zeta.
  destruct (nested_scheduling_rejected Demo.funs Demo.store
              (Demo.sys (Some host_waitUntil) (Some host_onClose) (Some Demo.store)
                 (map TracedTask [Demo.fn 1; Demo.fn 4; Demo.fn 3]))
              [TracedTask (Demo.fn 1)] [TracedTask (Demo.fn 3)] 4 [] false
              [JsFunction 1 []] eq_refl (fun v w => eq_refl))
    as (_ & _ & Hlog & Hnever & _ & Hworld).
  split; [reflexivity |]. split; [reflexivity |].
  split; [exact Hlog |]. split; [exact Hnever |].
  rewrite Hworld. vm_compute. reflexivity.
Defined.

(** C7 at a queue of two cookie writers: the response's own [Headers]
    object, number 0, is still empty after the drain pass. *)
Lemma readonly_store_discards_cookie_writes_witness :
  let s := Demo.sys (Some host_waitUntil) (Some host_onClose) (Some Demo.store)
             (map TracedTask [Demo.fn 5; Demo.fn 5]) in
  let result := runCallbacks Demo.funs (Some Demo.store) s in
  afterCallbacks (this s) <> []
  /\ Forall (writes_cookie Demo.funs) (afterCallbacks (this s))
  /\ fst result = Fulfilled
  /\ headersHeap (world s) !! rc_headers (mutableCookies Demo.store) = Some []
  /\ headersHeap (world (snd result)) !! rc_headers (mutableCookies Demo.store)
     = Some [].
Proof.
  cbv zeta.
  set (s := Demo.sys (Some host_waitUntil) (Some host_onClose) (Some Demo.store)
              (map TracedTask [Demo.fn 5; Demo.fn 5])).
  assert (afterCallbacks (this s) <> []) as Hne by discriminate.
  assert (writes_cookie Demo.funs (TracedTask (Demo.fn 5))) as Hw.
  { exists 5, [], "session", "x". split; reflexivity. }
  assert (Forall (writes_cookie Demo.funs) (afterCallbacks (this s))) as Hall
    by (repeat constructor; exact Hw).
  destruct (readonly_store_discards_cookie_writes Demo.funs Demo.store s Hne Hall)
    as (_ & _ & _ & Hout & _ & Hkept & _).
  split; [exact Hne |]. split; [exact Hall |]. split; [exact Hout |].
  split; [reflexivity |].
  rewrite Hkept; [reflexivity |]. exists []. reflexivity.
Defined.

(** C1 at the drained context of [Demo]. *)
Lemma drained_context_still_open_witness :
  let s := snd (after_all Demo.funs [Demo.fn 1; Demo.fn 2; Demo.fn 3] Demo.ready) in
  afterCallbacks (this s) <> []
  /\ this (close Demo.funs s) = this s
  /\ run Demo.store (ret 42) (close Demo.funs s)
     = (Normal 42, entered Demo.store (close Demo.funs s))
  /\ fst (after Demo.funs (Demo.fn 1) (close Demo.funs s)) = Normal tt.
Proof.
  cbv zeta.
  set (s := snd (after_all Demo.funs [Demo.fn 1; Demo.fn 2; Demo.fn 3] Demo.ready)).
  assert (afterCallbacks (this s) <> []) as Hne by discriminate.
  destruct (drained_context_still_open Demo.funs s Demo.store (ret 42) 1 [] Hne)
    as (Hthis & Hrun & Hafter & _).
  split; [exact Hne |]. split; [exact Hthis |]. split; [exact Hrun |].
  unfold Demo.fn. rewrite Hafter. reflexivity.
Defined.

(** C2 at a context without [waitUntil]. *)
Lemma first_callback_missing_capability_witness :
  let s := Demo.sys None (Some host_onClose) (Some Demo.store) [] in
  afterCallbacks (this s) = []
  /\ waitUntil (this s) = None
  /\ after Demo.funs (Demo.fn 1) s = (Throw (Error msg_waitUntil_unavailable), s).
Proof.
  cbv zeta.
  destruct (first_callback_missing_capability Demo.funs 1 []
              (Demo.sys None (Some host_onClose) (Some Demo.store) [])
              eq_refl (or_introl eq_refl)) as (Heq & _).
  split; [reflexivity |]. split; [reflexivity |]. exact Heq.
Defined.

(* ===================================================================== *)
(* 14. The model on small inputs                                         *)
(* ===================================================================== *)

Example isPromise_native : isPromise (JsPromise 7) = true.
Proof. reflexivity. Qed.

Example isPromise_thenable :
  isPromise (JsObject [("then", Demo.fn 1)]) = true.
Proof. reflexivity. Qed.

Example isPromise_then_not_callable :
  isPromise (JsObject [("then", JsNumber 1)]) = false.
Proof. reflexivity. Qed.

Example isPromise_primitives :
  map isPromise [JsUndefined; JsNull; JsBoolean true; JsNumber 0; JsString "then"]
  = [false; false; false; false; false].
Proof. reflexivity. Qed.

(** A value that is neither a promise nor a function is refused and
    nothing changes. *)
Example after_number :
  after Demo.funs (JsNumber 3) Demo.ready = (Throw (Error msg_bad_task), Demo.ready).
Proof. reflexivity. Qed.

(** A thenable that is not a promise and has no [catch]: the call of
    [task.catch] is what fails. *)
Example after_thenable_without_catch :
  fst (after Demo.funs (JsObject [("then", Demo.fn 1)]) Demo.ready)
  = Throw (TypeError "task.catch is not a function").
Proof. reflexivity. Qed.

(** A promise handed to [after] on the ready context: one [waitUntil]
    call, the queue untouched. *)
Example after_promise_ready :
  let s' := snd (after Demo.funs (JsPromise 7) Demo.ready) in
  events s' = [EvWaitUntil (WaitTask (JsPromise 7))]
  /\ afterCallbacks (this s') = []
  /\ rejectionHandlers (promise_cell 7 (world s')) = 1.
Proof. vm_compute. done. Qed.

(** A callback that returns a promise which rejects: the reason is on the
    console once the wrapper resumes, and the batch is fulfilled. *)
Example drain_async_rejection :
  let s := Demo.sys (Some host_waitUntil) (Some host_onClose) (Some Demo.store)
             [TracedTask (Demo.fn 6)] in
  let result := runCallbacks Demo.funs (Some Demo.store) s in
  fst result = Fulfilled
  /\ console_errors (events (snd result)) = [Error "late"]
  /\ rejectionHandlers (promise_cell 7 (world (snd result))) = 1.
Proof. vm_compute. done. Qed.

(** The whole life of the demo request, as the host sees it. *)
Example demo_host_view :
  waitUntil_calls (events Demo.drained) = [WaitDrainJob]
  /\ close_registrations (events Demo.drained) = [tt]
  /\ traced (events Demo.drained) = [Demo.fn 1; Demo.fn 2; Demo.fn 3]
  /\ console_errors (events Demo.drained) = [Error "boom"]
  /\ last (events Demo.drained) = Some (EvDrainJobSettled Fulfilled)
  /\ afterCallbacks (this Demo.drained)
     = map TracedTask [Demo.fn 1; Demo.fn 2; Demo.fn 3].
Proof. vm_compute. done. Qed.

(* ===================================================================== *)
(* 15. More about classification and scheduling                          *)
(* ===================================================================== *)

(** [isPromise] accepts exactly the native promises and the objects whose
    [then] is a function; no function, no primitive and no [null] passes,
    whatever it carries. *)
Theorem isPromise_exactly (v : JsValue) :
  isPromise v = true
  <-> (exists p, v = JsPromise p)
      \/ (exists props f ps,
            v = JsObject props
            /\ lookup_prop "then" props = Some (JsFunction f ps)).
Proof.
  split.
  - destruct v as [| | b | n | str | props | p | f props]; try discriminate.
    + unfold isPromise, has_prop, get_prop; simpl.
      destruct (lookup_prop "then" props) as [[| | | | | | |g ps]|] eqn:E;
        simpl; try discriminate.
      intros _. right. eauto.
    + intros _. left. eauto.
  - intros [[p ->] | (props & f & ps & -> & E)]; [reflexivity |].
    unfold isPromise, has_prop, get_prop; simpl. rewrite E. reflexivity.
Qed.

Section MoreScheduling.

Variable funs : FunRef -> Callable.

(** [after] refuses every value that is not a promise, not a function and
    not an object with a callable [then] (so every primitive, [null], and
    every object whose [then] is missing or is not a function) with the
    error for a bad argument, and leaves the state as it was. *)
Theorem after_rejects_non_tasks (task : JsValue) (s : Sys) :
  (forall p, task <> JsPromise p) ->
  (forall f ps, task <> JsFunction f ps) ->
  (forall props f ps,
     task = JsObject props -> lookup_prop "then" props <> Some (JsFunction f ps)) ->
  after funs task s = (Throw (Error msg_bad_task), s).
Proof.
  intros Hp Hf Ho.
  destruct task as [| | b | n | str | props | p | f props]; try reflexivity.
  - unfold after, isPromise, has_prop, get_prop; simpl.
    destruct (lookup_prop "then" props) as [[| | | | | | |g ps]|] eqn:E;
      simpl; try reflexivity.
    exfalso. by apply (Ho props g ps).
  - exfalso. by apply (Hp p).
  - exfalso. by apply (Hf f props).
Qed.

(** An object that passes [isPromise] without being a promise and has no
    callable [catch] makes [after] fail in [task.catch(...)]: the error is
    the [TypeError] of that call whether or not [waitUntil] is there,
    [waitUntil] is not called, and the state is as it was. *)
Theorem after_thenable_without_catch_fails (props : list (string * JsValue))
  (f : FunRef) (ps : list (string * JsValue)) (s : Sys) :
  lookup_prop "then" props = Some (JsFunction f ps) ->
  typeof (get_prop "catch" (JsObject props)) <> TFunction ->
  isPromise (JsObject props) = true
  /\ after funs (JsObject props) s
     = (Throw (TypeError "task.catch is not a function"), s).
Proof.
  intros Hthen Hcatch.
  assert (isPromise (JsObject props) = true) as Hp.
  { unfold isPromise, has_prop, get_prop; simpl. by rewrite Hthen. }
  split; [done |].
  unfold after. rewrite Hp. unfold call_catch_noop. unfold_m.
  destruct (get_prop "catch" (JsObject props)) as [| | | | | | |g gps]; try done.
Qed.

(** A function scheduled before [run] has given the context a request
    store: with [waitUntil] present and the queue empty, [after] throws
    the internal error about the missing store, whether or not [onClose]
    is there, and nothing is registered or queued. *)
Theorem after_before_run_fails (f : FunRef) (props : list (string * JsValue))
  (s : Sys) :
  afterCallbacks (this s) = [] ->
  is_Some (waitUntil (this s)) ->
  requestStore (this s) = None ->
  after funs (JsFunction f props) s
  = (Throw (Error msg_requestStore_uninitialized), s).
Proof.
  intros Hq [wu Hwu] Hrs.
  rewrite after_function, addCallback_cases, Hq, Hwu, Hrs. reflexivity.
Qed.

(** The first use of a new context: [run(store, () => after(fn))] on the
    context [createAfterContext] built with [waitUntil] and [onClose]
    returns normally; the context holds the store, the queue holds the
    function, and the host has seen the cache scope entered (if there is
    one), then one [onClose] registration and one [waitUntil], with the
    drain job.  The function itself has not run. *)
Theorem run_then_after_registers (wu : WaitUntilFn) (oc : OnCloseFn)
  (cs : option CacheScope) (w : World) (store : RequestStore)
  (f : FunRef) (props : list (string * JsValue)) :
  let task := JsFunction f props in
  let result := run store (after funs task) (boot (Some wu) (Some oc) cs w) in
  fst result = Normal tt
  /\ requestStore (this (snd result)) = Some store
  /\ afterCallbacks (this (snd result)) = [TracedTask task]
  /\ events (snd result)
     = match cs with Some scope => [EvCacheScopeRun scope] | None => [] end
       ++ [EvOnClose; EvWaitUntil WaitDrainJob]
  /\ closeListeners (snd result) = [ResumeRunCallbacksOnClose]
  /\ microtasks (snd result) = []
  /\ world (snd result) = w.
Proof.
  intros task result. subst result task.
  rewrite run_cases, after_function, addCallback_cases.
  unfold entered, boot, createAfterContext; simpl.
  destruct cs as [scope|]; simpl; split_and!; reflexivity.
Qed.

(** Scheduling a function never calls it, in any state: the world is
    untouched, the tracer has seen nothing new and no drain pass has
    started. *)
Theorem after_function_does_not_call (f : FunRef)
  (props : list (string * JsValue)) (s : Sys) :
  let s' := snd (after funs (JsFunction f props) s) in
  world s' = world s
  /\ traced (events s') = traced (events s)
  /\ storage_runs (events s') = storage_runs (events s)
  /\ console_errors (events s') = console_errors (events s)
  /\ microtasks s' = microtasks s.
Proof.
  cbv zeta. rewrite after_function, addCallback_cases.
  destruct (afterCallbacks (this s));
    [destruct (waitUntil (this s)), (requestStore (this s)), (onClose (this s)) |];
    cbn [snd]; try (split_and!; reflexivity).
  unfold registered; simpl.
  rewrite <- !app_assoc, traced_app, storage_runs_app, console_errors_app; simpl.
  by rewrite !app_nil_r.
Qed.

End MoreScheduling.

(** Appending a period to a message that does not end with one does not
    change the error: [new InvariantError(m)] and
    [new InvariantError(m + '.')] carry the same message, so the message
    does not tell the two apart. *)
Theorem InvariantError_absorbs_one_period (m : string) :
  Str.endsWith m "." = false ->
  Invariant.new (m ++ ".")%string = Invariant.new m
  /\ (m ++ ".")%string <> m.
Proof.
  intros Hm. unfold Invariant.new, Invariant.message_of. rewrite Hm.
  assert (Str.endsWith (m ++ ".")%string "." = true) as ->
    by (apply StrFacts.endsWith_spec; by exists m).
  split; [reflexivity |].
  intros Heq. apply (f_equal String.length) in Heq.
  rewrite StrFacts.length_app in Heq. simpl in Heq. lia.
Qed.

(** [p.catch(() => {})] adds one reaction to [p] and none to any other
    promise. *)
Lemma catch_noop_handlers (p q : PromiseRef) (w : World) :
  rejectionHandlers (promise_cell q (snd (Promise_catch_noop p w)))
  = rejectionHandlers (promise_cell q w) + (if decide (q = p) then 1 else 0).
Proof.
  destruct (decide (q = p)) as [-> | Hqp].
  { rewrite PromiseFacts.catch_noop_task. simpl. lia. }
  unfold Promise_catch_noop.
  set (d := match fate (promise_cell p w) with
            | NeverSettles => NeverSettles | _ => Fulfils end).
  pose proof (PromiseFacts.alloc_fresh d (observe_rejection p w)) as Hfresh.
  pose proof (PromiseFacts.cell_alloc_same d (observe_rejection p w)) as Hsame.
  set (r := fst (alloc_promise d (observe_rejection p w))) in *.
  destruct (decide (q = r)) as [-> | Hqd].
  - rewrite Hsame. cbn [rejectionHandlers].
    assert (promises w !! r = None) as Hr.
    { unfold observe_rejection, set_promises in Hfresh; cbn [promises] in Hfresh.
      by rewrite lookup_insert_ne in Hfresh. }
    unfold promise_cell. rewrite Hr. simpl. lia.
  - rewrite PromiseFacts.cell_alloc_other by done.
    rewrite PromiseFacts.cell_observe_other by done. lia.
Qed.

Section MoreAwaitables.

Variable funs : FunRef -> Callable.

(** Promises handed to [after] one after the other, on a context with
    [waitUntil]: every call returns, the host sees one [waitUntil] call per
    promise, in call order, and nothing else; the context, queue included,
    and the close listeners are as they were, so no drain job exists for
    them; and every promise has gained as many reactions as the number of
    times it was handed over. *)
Theorem after_all_promises (ps : list PromiseRef) (s : Sys) :
  is_Some (waitUntil (this s)) ->
  let tasks := map JsPromise ps in
  let result := after_all funs tasks s in
  fst result = Normal tt
  /\ events (snd result)
     = events s ++ map (fun t => EvWaitUntil (WaitTask t)) tasks
  /\ this (snd result) = this s
  /\ closeListeners (snd result) = closeListeners s
  /\ microtasks (snd result) = microtasks s
  /\ forall q,
       rejectionHandlers (promise_cell q (world (snd result)))
       = rejectionHandlers (promise_cell q (world s)) + count_occ Nat.eq_dec ps q.
Proof.
  intros Hwu. cbv zeta. revert s Hwu.
  induction ps as [|p ps IH]; intros s [wu Hwu]; simpl.
  - split_and!; try done; try (by rewrite app_nil_r); intros q; lia.
  - unfold bind. rewrite after_promise_cases, Hwu.
    set (s1 := emit (EvWaitUntil (WaitTask (JsPromise p))) (observed p s)).
    assert (is_Some (waitUntil (this s1))) as Hwu1 by (exists wu; exact Hwu).
    destruct (IH s1 Hwu1) as (H1 & H2 & H3 & H4 & H5 & H6).
    split_and!; try done.
    + rewrite H2. unfold s1; simpl. by rewrite <- app_assoc.
    + intros q. rewrite H6.
      change (world s1) with (snd (Promise_catch_noop p (world s))).
      rewrite catch_noop_handlers.
      destruct (Nat.eq_dec p q) as [-> | Hne].
      * rewrite decide_True by done. lia.
      * rewrite decide_False by (intros ->; done). lia.
Qed.

(** A function scheduled once the close signal has been handled is taken
    without an error and never called: it sits at the end of the queue,
    and a further close signal finds nothing to do. *)
Theorem late_callback_never_runs (s : Sys) (f : FunRef)
  (props : list (string * JsValue)) :
  afterCallbacks (this s) <> [] ->
  let task := JsFunction f props in
  let result := after funs task (close funs s) in
  fst result = Normal tt
  /\ afterCallbacks (this (snd result))
     = afterCallbacks (this s) ++ [TracedTask task]
  /\ events (snd result) = events (close funs s)
  /\ close funs (snd result) = snd result.
Proof.
  intros Hq. cbv zeta.
  pose proof (close_this funs s) as Hthis.
  pose proof (close_listeners_gone funs s) as [Hcl Hmt].
  rewrite after_function, addCallback_cases, Hthis.
  destruct (afterCallbacks (this s)) as [|cb q] eqn:E; [done |].
  cbn [fst snd].
  split; [done |].
  split; [simpl; by rewrite Hthis, E |].
  split; [done |].
  apply close_idle; simpl; done.
Qed.

End MoreAwaitables.

Section DrainEvents.

Variable funs : FunRef -> Callable.

Lemma scope_runs_app (a b : list Event) :
  scope_runs (a ++ b) = scope_runs a ++ scope_runs b.
Proof. apply omap_app. Qed.

(** Events of callbacks say nothing to the host. *)
Lemma callback_events_quiet (evs : list Event) :
  Forall callback_event evs ->
  storage_runs evs = [] /\ waitUntil_calls evs = []
  /\ close_registrations evs = [] /\ scope_runs evs = [].
Proof.
  induction 1 as [|e evs He _ (IH1 & IH2 & IH3 & IH4)]; [done |].
  destruct e; simpl in He; try done.
Qed.

Lemma sync_phase_events (view : ReadonlyRequestStore) (cbs : list AfterCallback)
  (w : World) :
  Forall callback_event (snd (fst (sync_phase funs view cbs w))).
Proof.
  revert w. induction cbs as [|cb rest IH]; intros w; simpl; [constructor |].
  unfold callback_step.
  destruct (call funs (task_of cb) (Some view) w) as [[[p|]|err] w1];
    match goal with
    | |- context [sync_phase funs view rest ?x] =>
        specialize (IH x); destruct (sync_phase funs view rest x) as [[wrs e2] w2]
    end;
    simpl in *; repeat constructor; done.
Qed.

Lemma wrapper_log_events (w : World) (wrs : list Wrapper) :
  Forall callback_event (omap (wrapper_log w) wrs).
Proof.
  induction wrs as [|wr rest IH]; simpl; [constructor |].
  destruct wr as [|p]; simpl; [done |].
  destruct (fate (promise_cell p w)); simpl; try done.
  by constructor.
Qed.

(** The events of a drain pass, in order: the wrapped store is installed,
    the cache scope (if any) is entered, and then come the events of the
    callbacks, which include one trace per queued callback, in queue
    order. *)
Lemma runCallbacks_events (store : RequestStore) (s : Sys) :
  afterCallbacks (this s) <> [] ->
  exists rest,
    events (snd (runCallbacks funs (Some store) s))
    = events s
      ++ drain_prologue (fst (wrapRequestStoreForAfterCallbacks store (world s))) s
      ++ rest
    /\ Forall callback_event rest
    /\ traced rest = map task_of (afterCallbacks (this s)).
Proof.
  intros Hq. rewrite runCallbacks_spec by done.
  destruct (wrapRequestStoreForAfterCallbacks store (world s)) as [view w0].
  pose proof (sync_phase_log funs view (afterCallbacks (this s)) w0) as Hlog.
  pose proof (sync_phase_events view (afterCallbacks (this s)) w0) as Hev.
  destruct (sync_phase funs view (afterCallbacks (this s)) w0) as [[wrs e1] w1].
  destruct Hlog as (Ht & _). cbn [fst snd] in *.
  exists (e1 ++ omap (wrapper_log w1) wrs).
  split; [reflexivity |]. split.
  - apply Forall_app. split; [done | apply wrapper_log_events].
  - rewrite traced_app, Ht.
    destruct (wrapper_log_quiet w1 wrs) as (-> & _). by rewrite app_nil_r.
Qed.

(** The same for the microtask that resumes [runCallbacksOnClose]; what
    may follow the callbacks' events is the settlement of the drain job. *)
Lemma run_microtask_events (store : RequestStore) (s : Sys) :
  afterCallbacks (this s) <> [] ->
  requestStore (this s) = Some store ->
  exists rest,
    events (run_microtask funs ResumeRunCallbacksOnClose s)
    = events s
      ++ drain_prologue (fst (wrapRequestStoreForAfterCallbacks store (world s))) s
      ++ rest
    /\ traced rest = map task_of (afterCallbacks (this s))
    /\ storage_runs rest = [] /\ waitUntil_calls rest = []
    /\ close_registrations rest = [] /\ scope_runs rest = [].
Proof.
  intros Hq Hrs. unfold run_microtask. rewrite Hrs.
  destruct (runCallbacks_events store s Hq) as (rest & Hev & Hcb & Ht).
  destruct (callback_events_quiet rest Hcb) as (Q1 & Q2 & Q3 & Q4).
  destruct (runCallbacks funs (Some store) s) as [out s']. cbn [snd] in Hev.
  destruct out as [|e|].
  - exists (rest ++ [EvDrainJobSettled Fulfilled]).
    unfold emit; cbn [events]. rewrite Hev, <- !app_assoc.
    rewrite traced_app, storage_runs_app, waitUntil_calls_app,
      close_registrations_app, scope_runs_app, Ht, Q1, Q2, Q3, Q4.
    simpl. by rewrite app_nil_r.
  - exists (rest ++ [EvDrainJobSettled (Rejected e)]).
    unfold emit; cbn [events]. rewrite Hev, <- !app_assoc.
    rewrite traced_app, storage_runs_app, waitUntil_calls_app,
      close_registrations_app, scope_runs_app, Ht, Q1, Q2, Q3, Q4.
    simpl. by rewrite app_nil_r.
  - exists rest. by rewrite Hev.
Qed.

End DrainEvents.

Section MoreDraining.

Variable funs : FunRef -> Callable.

(** One drain pass, in the order the host and the runtime see it: the
    wrapped store is installed once, then the cache scope is entered once
    if the context has one (and not at all if it has none), and only then
    are the callbacks called, one trace per queued callback in queue order;
    nothing but tracer and console events follows. *)
Theorem drain_enters_store_then_scope (store : RequestStore) (s : Sys) :
  afterCallbacks (this s) <> [] ->
  let result := runCallbacks funs (Some store) s in
  let view := fst (wrapRequestStoreForAfterCallbacks store (world s)) in
  exists rest,
    events (snd result)
    = events s
      ++ [EvStorageRun view]
      ++ match cacheScope (this s) with
         | Some scope => [EvCacheScopeRun scope]
         | None => []
         end
      ++ rest
    /\ Forall callback_event rest
    /\ traced rest = map task_of (afterCallbacks (this s)).
Proof.
  intros Hq. cbv zeta.
  destruct (runCallbacks_events funs store s Hq) as (rest & Hev & Hcb & Ht).
  exists rest. split; [| done]. rewrite Hev. unfold drain_prologue.
  destruct (cacheScope (this s)); reflexivity.
Qed.

(** A function scheduled after the close signal has fired but before the
    drain job has resumed is part of the pass: the queue is read when the
    pass starts, not when the signal fires. *)
Theorem scheduled_before_drain_starts_runs (store : RequestStore) (s : Sys)
  (f : FunRef) (props : list (string * JsValue)) :
  closeListeners s = [ResumeRunCallbacksOnClose] ->
  microtasks s = [] ->
  afterCallbacks (this s) <> [] ->
  requestStore (this s) = Some store ->
  let task := JsFunction f props in
  let result := after funs task (host_close s) in
  let s3 := run_microtasks funs (snd result) in
  fst result = Normal tt
  /\ traced (events s3)
     = traced (events s) ++ map task_of (afterCallbacks (this s)) ++ [task]
  /\ length (storage_runs (events s3)) = S (length (storage_runs (events s))).
Proof.
  intros Hcl Hmt Hq Hrs. cbv zeta.
  rewrite after_function, addCallback_cases.
  change (this (host_close s)) with (this s).
  destruct (afterCallbacks (this s)) as [|cb q] eqn:E; [done |].
  cbn [fst snd]. split; [done |].
  unfold run_microtasks.
  assert (microtasks (set_this (push_afterCallback (TracedTask (JsFunction f props)))
                        (host_close s)) = [ResumeRunCallbacksOnClose]) as ->.
  { simpl. by rewrite Hmt, Hcl. }
  cbn [fold_left].
  set (s2 := set_microtasks (fun _ => [])
               (set_this (push_afterCallback (TracedTask (JsFunction f props)))
                  (host_close s))).
  assert (afterCallbacks (this s2) = (cb :: q) ++ [TracedTask (JsFunction f props)])
    as Hq2 by (unfold s2; simpl; by rewrite E).
  assert (requestStore (this s2) = Some store) as Hrs2 by exact Hrs.
  assert (events s2 = events s) as Hev2 by reflexivity.
  destruct (run_microtask_events funs store s2) as (rest & -> & Ht & Hs & _);
    [by rewrite Hq2 | done |].
  destruct (drain_prologue_log
              (fst (wrapRequestStoreForAfterCallbacks store (world s2))) s2)
    as (Pt & Ps & _).
  rewrite Hev2, !traced_app, !storage_runs_app, Pt, Ps, Ht, Hs, Hq2.
  rewrite map_app. simpl. split; [done |].
  rewrite length_app. simpl. lia.
Qed.

(** The drain pass runs under the store of the latest [run]: when [run] is
    called again between scheduling and the close signal, the store that
    is wrapped is the new one, whatever store was there when the callbacks
    were scheduled. *)
Theorem drain_uses_latest_store (storeB : RequestStore) (s : Sys) :
  closeListeners s = [ResumeRunCallbacksOnClose] ->
  microtasks s = [] ->
  afterCallbacks (this s) <> [] ->
  let s1 := snd (run storeB (ret tt) s) in
  storage_runs (events (close funs s1))
  = storage_runs (events s)
    ++ [fst (wrapRequestStoreForAfterCallbacks storeB (world s))].
Proof.
  intros Hcl Hmt Hq. cbv zeta. rewrite run_cases. cbn [snd ret].
  assert (closeListeners (entered storeB s) = [ResumeRunCallbacksOnClose]) as Hcl1.
  { unfold entered. destruct (cacheScope (this s)); exact Hcl. }
  assert (microtasks (entered storeB s) = []) as Hmt1.
  { unfold entered. destruct (cacheScope (this s)); exact Hmt. }
  rewrite close_one_job by done.
  set (s2 := set_closeListeners (fun _ => []) (entered storeB s)).
  assert (afterCallbacks (this s2) = afterCallbacks (this s)) as Hq2.
  { unfold s2, entered. destruct (cacheScope (this s)); reflexivity. }
  assert (requestStore (this s2) = Some storeB) as Hrs2.
  { unfold s2, entered. destruct (cacheScope (this s)); reflexivity. }
  assert (world s2 = world s) as Hw2.
  { unfold s2, entered. destruct (cacheScope (this s)); reflexivity. }
  assert (storage_runs (events s2) = storage_runs (events s)) as Hs2.
  { unfold s2, entered. destruct (cacheScope (this s)); simpl; [| done].
    rewrite storage_runs_app. simpl. by rewrite app_nil_r. }
  destruct (run_microtask_events funs storeB s2) as (rest & -> & _ & Hs & _);
    [by rewrite Hq2 | done |].
  destruct (drain_prologue_log
              (fst (wrapRequestStoreForAfterCallbacks storeB (world s2))) s2)
    as (_ & Ps & _).
  rewrite !storage_runs_app, Ps, Hs, Hs2, Hw2. by rewrite app_nil_r.
Qed.

Lemma Promise_all_unsettled (w : World) (wrs : list Wrapper) :
  Promise_all (map (wrapper_outcome w) wrs) = Unsettled
  <-> exists p, WrapperAwaits p ∈ wrs /\ fate (promise_cell p w) = NeverSettles.
Proof.
  induction wrs as [|wr rest IH]; simpl.
  - split; [done |]. intros (p & Hin & _). by apply elem_of_nil in Hin.
  - destruct wr as [|p]; simpl.
    + rewrite IH. split; intros (q & Hin & Hf); exists q; split; try done.
      * by apply list_elem_of_further.
      * apply elem_of_cons in Hin as [Heq | Hin]; done.
    + destruct (fate (promise_cell p w)) as [|e|] eqn:Hf; simpl.
      * rewrite IH. split; intros (q & Hin & Hq); exists q; split; try done.
        -- by apply list_elem_of_further.
        -- apply elem_of_cons in Hin as [[= ->] | Hin]; [congruence | done].
      * rewrite IH. split; intros (q & Hin & Hq); exists q; split; try done.
        -- by apply list_elem_of_further.
        -- apply elem_of_cons in Hin as [[= ->] | Hin]; [congruence | done].
      * split; [intros _ |].
        -- exists p. split; [apply list_elem_of_here | done].
        -- intros _. destruct (Promise_all_wrappers w rest) as [-> | ->]; done.
Qed.

(** The promise of the batch stays unsettled exactly when one of the
    promises the callbacks returned never settles, and is fulfilled
    otherwise: a callback that hangs keeps the drain job, and with it the
    host, waiting, and nothing in the pass times it out. *)
Theorem batch_unsettled_iff_some_callback_hangs (store : RequestStore) (s : Sys) :
  afterCallbacks (this s) <> [] ->
  let result := runCallbacks funs (Some store) s in
  let view := fst (wrapRequestStoreForAfterCallbacks store (world s)) in
  let w0 := snd (wrapRequestStoreForAfterCallbacks store (world s)) in
  let phase := sync_phase funs view (afterCallbacks (this s)) w0 in
  let awaited p := WrapperAwaits p ∈ fst (fst phase) in
  world (snd result) = snd phase
  /\ (fst result = Unsettled
      <-> exists p, awaited p
                    /\ fate (promise_cell p (world (snd result))) = NeverSettles)
  /\ (fst result = Fulfilled
      <-> forall p, awaited p ->
                    fate (promise_cell p (world (snd result))) <> NeverSettles).
Proof.
  intros Hq. cbv zeta. rewrite runCallbacks_spec by done.
  destruct (wrapRequestStoreForAfterCallbacks store (world s)) as [view w0].
  cbn [fst snd].
  destruct (sync_phase funs view (afterCallbacks (this s)) w0) as [[wrs e1] w1].
  cbn [fst snd advance world].
  split; [done |]. split; [apply Promise_all_unsettled |].
  pose proof (Promise_all_unsettled w1 wrs) as Hu.
  destruct (Promise_all_wrappers w1 wrs) as [Hf | Hf]; rewrite Hf in *.
  - split; [| done]. intros _ p Hin Hp.
    assert (Fulfilled = Unsettled) by (apply Hu; eauto). done.
  - split; [done |]. intros Hall.
    destruct Hu as [Hu _]. destruct (Hu eq_refl) as (p & Hin & Hp).
    exfalso. by apply (Hall p).
Qed.

End MoreDraining.

(** Every call of [wrapRequestStoreForAfterCallbacks] builds its own
    cookie channel: two wrapped stores never share the [Headers] object
    behind [mutableCookies], neither object existed before, both are
    empty, and the objects that did exist are untouched. *)
Theorem wrapped_stores_do_not_share_cookies (store1 store2 : RequestStore)
  (w : World) :
  let r1 := wrapRequestStoreForAfterCallbacks store1 w in
  let r2 := wrapRequestStoreForAfterCallbacks store2 (snd r1) in
  let h1 := rc_headers (mutableCookies (fst r1)) in
  let h2 := rc_headers (mutableCookies (fst r2)) in
  h1 <> h2
  /\ headersHeap w !! h1 = None
  /\ headersHeap w !! h2 = None
  /\ headersHeap (snd r2) !! h1 = Some []
  /\ headersHeap (snd r2) !! h2 = Some []
  /\ forall h, is_Some (headersHeap w !! h) ->
               headersHeap (snd r2) !! h = headersHeap w !! h.
Proof.
  cbv zeta. unfold wrapRequestStoreForAfterCallbacks, new_Headers.
  cbn [fst snd mutableCookies rc_headers new_ResponseCookies].
  set (h1 := fresh (dom (headersHeap w))).
  set (w1 := set_headersHeap <[h1:=[]]> w).
  set (h2 := fresh (dom (headersHeap w1))).
  assert (headersHeap w !! h1 = None) as F1 by apply not_elem_of_dom, is_fresh.
  assert (headersHeap w1 !! h2 = None) as F2 by apply not_elem_of_dom, is_fresh.
  assert (headersHeap w1 !! h1 = Some []) as S1.
  { unfold w1, set_headersHeap; simpl. by rewrite lookup_insert_eq. }
  assert (h1 <> h2) as Hne by (intros Heq; rewrite Heq in S1; congruence).
  assert (headersHeap w !! h2 = None) as F3.
  { unfold w1, set_headersHeap in F2; simpl in F2.
    by rewrite lookup_insert_ne in F2. }
  split_and!; try done.
  - unfold set_headersHeap; simpl. by rewrite lookup_insert_ne.
  - unfold set_headersHeap; simpl. by rewrite lookup_insert_eq.
  - intros h [lines Hh].
    assert (h <> h1) by (intros ->; congruence).
    assert (h <> h2) by (intros ->; congruence).
    unfold w1, set_headersHeap; simpl. by rewrite !lookup_insert_ne.
Qed.


Section MixedTasks.

Variable funs : FunRef -> Callable.

(** Promises and functions scheduled in any order on a context that has
    [waitUntil], [onClose] and a request store: every call returns; the
    functions, and only they, are queued, in call order; the host sees one
    [waitUntil] call per promise, in call order, and in between, where the
    first function meets an empty queue, the one call for the drain job;
    [onClose] is registered at that moment and never again. *)
Theorem after_all_mixed (tasks : list JsValue) (s : Sys) :
  Forall (fun t => (exists p, t = JsPromise p) \/ (exists f ps, t = JsFunction f ps))
    tasks ->
  is_Some (waitUntil (this s)) ->
  is_Some (requestStore (this s)) ->
  is_Some (onClose (this s)) ->
  let registered_before :=
    match afterCallbacks (this s) with [] => false | _ :: _ => true end in
  let result := after_all funs tasks s in
  fst result = Normal tt
  /\ afterCallbacks (this (snd result))
     = afterCallbacks (this s)
       ++ map TracedTask (List.filter (fun t => negb (isPromise t)) tasks)
  /\ waitUntil_calls (events (snd result))
     = waitUntil_calls (events s) ++ host_calls registered_before tasks
  /\ close_registrations (events (snd result))
     = close_registrations (events s)
       ++ (if registered_before || forallb isPromise tasks then [] else [tt]).
Proof.
  intros Hall. cbv zeta. revert s.
  induction Hall as [|task rest Htask _ IH]; intros s Hwu Hrs Hoc.
  - simpl. rewrite !app_nil_r.
    destruct (afterCallbacks (this s)); simpl; by rewrite !app_nil_r.
  - cbn [after_all]. unfold bind.
    destruct Htask as [[p ->] | (f & ps & ->)].
    + rewrite after_promise_cases.
      destruct Hwu as [wu Hwu]. rewrite Hwu.
      set (s1 := emit (EvWaitUntil (WaitTask (JsPromise p))) (observed p s)).
      assert (this s1 = this s) as Hthis by reflexivity.
      destruct (IH s1) as (H1 & H2 & H3 & H4);
        [rewrite Hthis; eauto | rewrite Hthis; done | rewrite Hthis; done |].
      rewrite Hthis in *.
      split; [done |]. split; [exact H2 |]. split.
      * rewrite H3. unfold s1; simpl.
        rewrite waitUntil_calls_app. simpl. by rewrite <- app_assoc.
      * rewrite H4. unfold s1; simpl.
        rewrite close_registrations_app. simpl. by rewrite app_nil_r.
    + rewrite after_function, addCallback_cases.
      destruct Hwu as [wu Hwu], Hrs as [rs Hrs], Hoc as [oc Hoc].
      rewrite Hwu, Hrs, Hoc.
      destruct (afterCallbacks (this s)) as [|cb q] eqn:E.
      * set (s1 := registered (TracedTask (JsFunction f ps)) s).
        assert (afterCallbacks (this s1) = [TracedTask (JsFunction f ps)]) as Hq1
          by (unfold s1, registered; simpl; by rewrite E).
        destruct (IH s1) as (H1 & H2 & H3 & H4); [eauto | eauto | eauto |].
        rewrite Hq1 in *.
        split; [done |]. split; [exact H2 |]. split.
        -- rewrite H3. unfold s1, registered; simpl.
           rewrite <- !app_assoc, !waitUntil_calls_app. simpl.
           by rewrite <- app_assoc.
        -- rewrite H4. unfold s1, registered; simpl.
           rewrite <- !app_assoc, !close_registrations_app. simpl.
           by rewrite <- app_assoc.
      * set (s1 := set_this (push_afterCallback (TracedTask (JsFunction f ps))) s).
        assert (afterCallbacks (this s1)
                = (cb :: q) ++ [TracedTask (JsFunction f ps)]) as Hq1
          by (unfold s1; simpl; by rewrite E).
        destruct (IH s1) as (H1 & H2 & H3 & H4); [eauto | eauto | eauto |].
        rewrite Hq1 in *.
        split; [done |]. split; [| split].
        -- rewrite H2. simpl. by rewrite <- app_assoc.
        -- exact H3.
        -- exact H4.
Qed.

End MixedTasks.

(* ===================================================================== *)
(* 16. The further theorems at the concrete request                      *)
(* ===================================================================== *)

Lemma after_rejects_non_tasks_witness :
  let task := JsObject [("then", JsString "later")] in
  typeof task = TObject
  /\ after Demo.funs task Demo.ready = (Throw (Error msg_bad_task), Demo.ready).
Proof.
  cbv zeta. split; [reflexivity |].
  apply (after_rejects_non_tasks Demo.funs).
  - intros p. discriminate.
  - intros f ps. discriminate.
  - intros props f ps [= <-]. vm_compute. discriminate.
Defined.

Lemma after_thenable_without_catch_fails_witness :
  let props := [("then", Demo.fn 1); ("catch", JsNumber 0)] in
  lookup_prop "then" props = Some (JsFunction 1 [])
  /\ typeof (get_prop "catch" (JsObject props)) <> TFunction
  /\ after Demo.funs (JsObject props) (Demo.sys None None None [])
     = (Throw (TypeError "task.catch is not a function"),
        Demo.sys None None None []).
Proof.
  cbv zeta.
  assert (typeof (get_prop "catch"
            (JsObject [("then", Demo.fn 1); ("catch", JsNumber 0)])) <> TFunction)
    as Hcatch by (vm_compute; discriminate).
  split; [reflexivity |]. split; [exact Hcatch |].
  exact (proj2 (after_thenable_without_catch_fails Demo.funs
                  [("then", Demo.fn 1); ("catch", JsNumber 0)] 1 []
                  (Demo.sys None None None []) eq_refl Hcatch)).
Defined.

Lemma after_before_run_fails_witness :
  let s := boot (Some host_waitUntil) None None Demo.world0 in
  afterCallbacks (this s) = []
  /\ requestStore (this s) = None
  /\ after Demo.funs (Demo.fn 1) s
     = (Throw (Error msg_requestStore_uninitialized), s).
Proof.
  cbv zeta. split; [reflexivity |]. split; [reflexivity |].
  exact (after_before_run_fails Demo.funs 1 []
           (boot (Some host_waitUntil) None None Demo.world0)
           eq_refl (ex_intro _ host_waitUntil eq_refl) eq_refl).
Defined.

Lemma InvariantError_absorbs_one_period_witness :
  Str.endsWith "missing store" "." = false
  /\ Invariant.new "missing store." = Invariant.new "missing store".
Proof.
  split; [reflexivity |].
  exact (proj1 (InvariantError_absorbs_one_period "missing store" eq_refl)).
Defined.

Lemma after_all_promises_witness :
  let result := after_all Demo.funs (map JsPromise [7; 7]) Demo.ready in
  is_Some (waitUntil (this Demo.ready))
  /\ fst result = Normal tt
  /\ waitUntil_calls (events (snd result))
     = [WaitTask (JsPromise 7); WaitTask (JsPromise 7)]
  /\ rejectionHandlers (promise_cell 7 (world (snd result))) = 2.
Proof.
  cbv zeta.
  assert (is_Some (waitUntil (this Demo.ready))) as Hwu
    by (exists host_waitUntil; reflexivity).
  destruct (after_all_promises Demo.funs [7; 7] Demo.ready Hwu)
    as (H1 & H2 & _ & _ & _ & H6).
  split; [exact Hwu |]. split; [exact H1 |]. split.
  - rewrite H2. reflexivity.
  - rewrite H6. reflexivity.
Defined.

Lemma late_callback_never_runs_witness :
  let s := Sample.scheduled in
  let result := after Demo.funs (Demo.fn 3) (close Demo.funs s) in
  afterCallbacks (this s) <> []
  /\ fst result = Normal tt
  /\ effects (world (close Demo.funs (snd result))) = [1].
Proof.
  cbv zeta.
  assert (afterCallbacks (this Sample.scheduled) <> []) as Hq by discriminate.
  destruct (late_callback_never_runs Demo.funs Sample.scheduled 3 [] Hq)
    as (H1 & _ & _ & H4).
  split; [exact Hq |]. split; [exact H1 |].
  unfold Demo.fn. rewrite H4. vm_compute. reflexivity.
Defined.

Lemma drain_enters_store_then_scope_witness :
  let s := Demo.sys (Some host_waitUntil) (Some host_onClose) (Some Demo.store)
             [TracedTask (Demo.fn 1)] in
  afterCallbacks (this s) <> []
  /\ traced (events (snd (runCallbacks Demo.funs (Some Demo.store) s)))
     = [Demo.fn 1].
Proof.
  cbv zeta.
  set (s := Demo.sys (Some host_waitUntil) (Some host_onClose) (Some Demo.store)
              [TracedTask (Demo.fn 1)]).
  assert (afterCallbacks (this s) <> []) as Hq by discriminate.
  destruct (drain_enters_store_then_scope Demo.funs Demo.store s Hq)
    as (rest & Hev & _ & Ht).
  split; [exact Hq |].
  rewrite Hev, !traced_app, Ht. reflexivity.
Defined.

Lemma scheduled_before_drain_starts_runs_witness :
  let s := Sample.scheduled in
  let result := after Demo.funs (Demo.fn 3) (host_close s) in
  closeListeners s = [ResumeRunCallbacksOnClose]
  /\ microtasks s = []
  /\ requestStore (this s) = Some Demo.store
  /\ traced (events (run_microtasks Demo.funs (snd result)))
     = [Demo.fn 1; Demo.fn 3].
Proof.
  cbv zeta.
  assert (afterCallbacks (this Sample.scheduled) <> []) as Hq by discriminate.
  destruct (scheduled_before_drain_starts_runs Demo.funs Demo.store
              Sample.scheduled 3 [] eq_refl eq_refl Hq eq_refl) as (_ & Ht & _).
  split; [reflexivity |]. split; [reflexivity |]. split; [reflexivity |].
  exact Ht.
Defined.

Lemma drain_uses_latest_store_witness :
  let s := Sample.scheduled in
  let s1 := snd (run Sample.other_store (ret tt) s) in
  closeListeners s = [ResumeRunCallbacksOnClose]
  /\ microtasks s = []
  /\ map headers (storage_runs (events (close Demo.funs s1))) = [11].
Proof.
  cbv zeta.
  assert (afterCallbacks (this Sample.scheduled) <> []) as Hq by discriminate.
  rewrite (drain_uses_latest_store Demo.funs Sample.other_store Sample.scheduled
             eq_refl eq_refl Hq).
  split; [reflexivity |]. split; reflexivity.
Defined.

Lemma batch_unsettled_iff_some_callback_hangs_witness :
  let s := Demo.sys (Some host_waitUntil) (Some host_onClose) (Some Demo.store)
             (map TracedTask [Demo.fn 2; Demo.fn 1]) in
  afterCallbacks (this s) <> []
  /\ fst (runCallbacks Sample.funs (Some Demo.store) s) = Unsettled.
Proof.
  cbv zeta.
  set (s := Demo.sys (Some host_waitUntil) (Some host_onClose) (Some Demo.store)
              (map TracedTask [Demo.fn 2; Demo.fn 1])).
  assert (afterCallbacks (this s) <> []) as Hq by discriminate.
  destruct (batch_unsettled_iff_some_callback_hangs Sample.funs Demo.store s Hq)
    as (Hw & [_ Hhang] & _).
  split; [exact Hq |].
  apply Hhang. exists 9. split.
  - vm_compute. apply list_elem_of_further, list_elem_of_here.
  - rewrite Hw. vm_compute. reflexivity.
Defined.


Lemma after_all_mixed_witness :
  let tasks := [JsPromise 7; Demo.fn 1; JsPromise 7; Demo.fn 3] in
  let result := after_all Demo.funs tasks Demo.ready in
  Forall (fun t => (exists p, t = JsPromise p) \/ (exists f ps, t = JsFunction f ps))
    tasks
  /\ fst result = Normal tt
  /\ afterCallbacks (this (snd result)) = map TracedTask [Demo.fn 1; Demo.fn 3]
  /\ waitUntil_calls (events (snd result))
     = [WaitTask (JsPromise 7); WaitDrainJob; WaitTask (JsPromise 7)]
  /\ close_registrations (events (snd result)) = [tt].
Proof.
  cbv zeta.
  assert (Forall (fun t => (exists p, t = JsPromise p)
                           \/ (exists f ps, t = JsFunction f ps))
            [JsPromise 7; Demo.fn 1; JsPromise 7; Demo.fn 3]) as Hall.
  { constructor; [left; eauto |]. constructor; [right; unfold Demo.fn; eauto |].
    constructor; [left; eauto |]. constructor; [right; unfold Demo.fn; eauto |].
    constructor. }
  destruct (after_all_mixed Demo.funs [JsPromise 7; Demo.fn 1; JsPromise 7; Demo.fn 3]
              Demo.ready Hall
              (ex_intro _ host_waitUntil eq_refl)
              (ex_intro _ Demo.store eq_refl)
              (ex_intro _ host_onClose eq_refl))
    as (H1 & H2 & H3 & H4).
  split; [exact Hall |]. split; [exact H1 |].
  split; [exact H2 |]. split; [exact H3 | exact H4].
Defined.
